(** * mig3: wiki export, path resolution and content rewriting

    A shallow embedding of [mig3.py].  Python strings are lists of
    characters; a character is a code point below 256 (Rocq's [ascii]),
    with [str.lower], [str.isspace] and the classes of [re] written out on
    that range.  [pathlib] paths are an anchor and a list of segments, the
    filesystem is the set of directories and files that exist, exceptions
    are a result type, and the two loops whose termination depends on the
    data ([custom_re_sub], [regressive_relative_to]) take a bound.
    Output on stdout is not part of the model. *)

From Stdlib Require Import Ascii String List Bool Arith Lia ZArith.
Import ListNotations.

Set Implicit Arguments.

(** ** Strings *)

Definition str := list ascii.

Definition lit (s : string) : str := list_ascii_of_string s.

Definition NL : ascii := "010"%char.
Definition chr_slash : ascii := "/"%char.
Definition chr_dot : ascii := "."%char.

Fixpoint str_eqb (a b : str) : bool :=
  match a, b with
  | [], [] => true
  | x :: a', y :: b' => Ascii.eqb x y && str_eqb a' b'
  | _, _ => false
  end.

(** [c.isspace()], which is also what [\s] accepts in a [str] pattern. *)
Definition is_space (c : ascii) : bool :=
  let n := nat_of_ascii c in
  ((9 <=? n) && (n <=? 13)) || ((28 <=? n) && (n <=? 32))
  || (n =? 133) || (n =? 160).

(** [c.lower()] for one character. *)
Definition lower_chr (c : ascii) : ascii :=
  let n := nat_of_ascii c in
  if ((65 <=? n) && (n <=? 90))
     || ((192 <=? n) && (n <=? 222) && negb (n =? 215))
  then ascii_of_nat (n + 32) else c.

Definition lower (s : str) : str := map lower_chr s.

(** [s.split(sep)] for a one-character separator. *)
Fixpoint split (sep : ascii) (s : str) : list str :=
  match s with
  | [] => [[]]
  | c :: s' =>
      if Ascii.eqb c sep then [] :: split sep s'
      else match split sep s' with
           | [] => [[c]]
           | w :: ws => (c :: w) :: ws
           end
  end.

(** [sep.join(ws)]. *)
Fixpoint join (sep : ascii) (ws : list str) : str :=
  match ws with
  | [] => []
  | [w] => w
  | w :: ws' => w ++ sep :: join sep ws'
  end.

Fixpoint prefixb (p s : str) : bool :=
  match p, s with
  | [], _ => true
  | x :: p', y :: s' => Ascii.eqb x y && prefixb p' s'
  | _ :: _, [] => false
  end.

(** ** Exceptions *)

(** The exceptions the program can meet.  [Dangling] is not a Python
    exception: it marks a reference to a document that is not in the store,
    which an index built from the store never holds. *)
Inductive exn :=
| IndexError | ValueError | OSError | RecursionError | BadSlug | Dangling.

Inductive res (A : Type) :=
| Ok (a : A)
| Raise (e : exn)
| OutOfFuel.

Arguments Ok {A} a.
Arguments Raise {A} e.
Arguments OutOfFuel {A}.

Definition bind {A B} (x : res A) (f : A -> res B) : res B :=
  match x with
  | Ok a => f a
  | Raise e => Raise e
  | OutOfFuel => OutOfFuel
  end.

Declare Scope res_scope.
Delimit Scope res_scope with res.
Notation "x <- e ;; k" := (bind e (fun x => k))
  (at level 61, e at next level, right associativity) : res_scope.
Notation "' p <- e ;; k" := (bind e (fun p => k))
  (at level 61, p pattern, e at next level, right associativity) : res_scope.
Open Scope res_scope.

(** ** Insertion-ordered dictionaries

    A Python [dict] keeps its keys in the order of their first insertion;
    assigning to a key that is present replaces the value in place. *)

Section Dict.
Variable V : Type.

Definition dict := list (str * V).

Fixpoint dict_get (d : dict) (k : str) : option V :=
  match d with
  | [] => None
  | (k', v) :: d' => if str_eqb k' k then Some v else dict_get d' k
  end.

Fixpoint dict_set (d : dict) (k : str) (v : V) : dict :=
  match d with
  | [] => [(k, v)]
  | (k', v') :: d' =>
      if str_eqb k' k then (k', v) :: d' else (k', v') :: dict_set d' k v
  end.

Definition dict_values (d : dict) : list V := map snd d.
Definition dict_keys (d : dict) : list str := map fst d.
End Dict.

(** ** Regular expressions

    The fragment of [re] that the three patterns of the program use:
    literals, [.], [\s], [\S], greedy [*], [+] and [?] over one character,
    numbered groups and concatenation.  The matcher backtracks the way
    [re] does: a greedy repetition first takes as many characters as it
    can and gives them back one at a time. *)

Inductive atom :=
| Lit (c : ascii)       (* an escaped or plain literal *)
| Dot                   (* [.], without DOTALL *)
| Space                 (* [\s] *)
| NonSpace.             (* [\S] *)

Definition atom_ok (a : atom) (c : ascii) : bool :=
  match a with
  | Lit x => Ascii.eqb c x
  | Dot => negb (Ascii.eqb c NL)
  | Space => is_space c
  | NonSpace => negb (is_space c)
  end.

Inductive regex :=
| One (a : atom)
| Star (a : atom)
| Plus (a : atom)
| Opt (a : atom)
| Grp (n : nat) (r : regex)
| Cat (r1 r2 : regex).

Definition caps := list (nat * str).

Fixpoint cap_get (g : caps) (n : nat) : option str :=
  match g with
  | [] => None
  | (n', s) :: g' => if n' =? n then Some s else cap_get g' n
  end.

Section Matcher.
Variable A : Type.

(** [a*] at [s]: the longest run first, then shorter ones. *)
Fixpoint star (a : atom) (s : str) (k : str -> option A) : option A :=
  match s with
  | c :: s' =>
      if atom_ok a c then
        match star a s' k with
        | Some x => Some x
        | None => k s
        end
      else k s
  | [] => k s
  end.

Fixpoint mtch (r : regex) (s : str) (g : caps)
         (k : str -> caps -> option A) : option A :=
  match r with
  | One a =>
      match s with
      | c :: s' => if atom_ok a c then k s' g else None
      | [] => None
      end
  | Star a => star a s (fun s' => k s' g)
  | Plus a =>
      match s with
      | c :: s' => if atom_ok a c then star a s' (fun s' => k s' g) else None
      | [] => None
      end
  | Opt a =>
      match s with
      | c :: s' =>
          if atom_ok a c then
            match k s' g with
            | Some x => Some x
            | None => k s g
            end
          else k s g
      | [] => k s g
      end
  | Grp n r1 =>
      mtch r1 s g
           (fun s' g' => k s' ((n, firstn (length s - length s') s) :: g'))
  | Cat r1 r2 => mtch r1 s g (fun s' g' => mtch r2 s' g' k)
  end.
End Matcher.

(** A match object: [m.start()], [m.end()] and the groups. *)
Record Match := { m_start : nat; m_end : nat; m_groups : caps }.

Definition group (m : Match) (n : nat) : str :=
  match cap_get (m_groups m) n with
  | Some s => s
  | None => []
  end.

(** [regex.match] anchored at the head of [s]: what is left and the groups. *)
Definition match_here (r : regex) (s : str) : option (str * caps) :=
  mtch r s [] (fun s' g => Some (s', g)).

(** [regex.search(text)]: the leftmost position where the pattern matches.
    [off] is the number of characters already skipped. *)
Fixpoint search_from (r : regex) (off : nat) (s : str) : option Match :=
  match match_here r s with
  | Some (s', g) =>
      Some {| m_start := off; m_end := off + (length s - length s');
              m_groups := g |}
  | None =>
      match s with
      | [] => None
      | _ :: s' => search_from r (S off) s'
      end
  end.

Definition search (r : regex) (text : str) : option Match :=
  search_from r 0 text.

Fixpoint cat (rs : list regex) (last : regex) : regex :=
  match rs with
  | [] => last
  | r :: rs' => Cat r (cat rs' last)
  end.

Definition L (c : string) : regex :=
  match c with
  | String a _ => One (Lit a)
  | EmptyString => One (Lit " "%char)
  end.

(** Group 1 is [url], group 2 is [text]. *)
Definition LINK_REGEX : regex :=
  cat [ L "["; L "["; Star Space;
        Grp 1 (Cat (Star Dot) (One NonSpace));
        Star Space; L "|"; Star Space;
        Grp 2 (Cat (Star Dot) (One NonSpace));
        Star Space; L "]" ] (L "]").

(** Group 1 is [slug]. *)
Definition INTERNAL_LINK_REGEX : regex :=
  cat [ L "["; L "["; Star Space;
        Grp 1 (Cat (Star Dot) (One NonSpace));
        Star Space; L "]" ] (L "]").

Definition HEADER_REGEX : regex :=
  cat [ Grp 1 (Plus (Lit "="%char)); Opt (Lit " "%char);
        Grp 2 (Star Dot); Opt (Lit " "%char) ] (Plus (Lit "="%char)).


(** ** Paths ([pathlib.PurePosixPath])

    [anchor] is 0 for a relative path, 1 for the root [/] and 2 for the
    root [//]; [parts] are the segments after the anchor. *)

Record Path := { anchor : nat; parts : list str }.

Definition path_eqb (p q : Path) : bool :=
  (anchor p =? anchor q) && 
  (fix eqs (a b : list str) : bool :=
     match a, b with
     | [], [] => true
     | x :: a', y :: b' => str_eqb x y && eqs a' b'
     | _, _ => false
     end) (parts p) (parts q).

Fixpoint lstrip_slash (s : str) : nat * str :=
  match s with
  | c :: s' =>
      if Ascii.eqb c chr_slash
      then let (n, r) := lstrip_slash s' in (S n, r)
      else (0, s)
  | [] => (0, [])
  end.

(** [_PosixFlavour.splitroot]. *)
Definition splitroot (part : str) : nat * str :=
  let (n, rel) := lstrip_slash part in
  ((if n =? 0 then 0 else if n =? 2 then 2 else 1), rel).

Definition keep_seg (x : str) : bool :=
  negb (str_eqb x []) && negb (str_eqb x [chr_dot]).

Definition segments (rel : str) : list str :=
  filter keep_seg (split chr_slash rel).

(** [_Flavour.parse_parts]: the arguments are read from the last one back
    to the first absolute one. *)
Fixpoint parse_parts (args : list str) : nat * list str :=
  match args with
  | [] => (0, [])
  | a :: rest =>
      let (rt, ps) := parse_parts rest in
      if negb (rt =? 0) then (rt, ps)
      else
        let (rt', rel) := splitroot a in
        (rt', segments rel ++ ps)
  end.

(** The constructor [Path] applied to its arguments. *)
Definition mkPath (args : list str) : Path :=
  let (rt, ps) := parse_parts args in {| anchor := rt; parts := ps |}.

(** [str(p)]. *)
Definition path_str (p : Path) : str :=
  match anchor p with
  | 0 => match parts p with
         | [] => [chr_dot]
         | ps => join chr_slash ps
         end
  | 1 => chr_slash :: join chr_slash (parts p)
  | _ => chr_slash :: chr_slash :: join chr_slash (parts p)
  end.

(** [p / arg]. *)
Definition path_join (p : Path) (arg : str) : Path :=
  let (rt, ps) := parse_parts [arg] in
  if rt =? 0 then {| anchor := anchor p; parts := parts p ++ ps |}
  else {| anchor := rt; parts := ps |}.

(** [p.parent]: the path without its last segment, and [p] itself when it
    has none. *)
Definition parent (p : Path) : Path :=
  {| anchor := anchor p; parts := removelast (parts p) |}.

Definition name (p : Path) : str := last (parts p) [].

(** [s.rfind(c)]. *)
Fixpoint rfind (c : ascii) (s : str) : option nat :=
  match s with
  | [] => None
  | x :: s' =>
      match rfind c s' with
      | Some i => Some (S i)
      | None => if Ascii.eqb x c then Some 0 else None
      end
  end.

(** [p.suffix], computed on the name. *)
Definition suffix_of (nm : str) : str :=
  match rfind chr_dot nm with
  | Some i => if (0 <? i) && (i <? length nm - 1) then skipn i nm else []
  | None => []
  end.

(** [p.with_suffix(sfx)] for a suffix that is well formed, as [".md"] is. *)
Definition with_suffix (p : Path) (sfx : str) : res Path :=
  let nm := name p in
  match nm with
  | [] => Raise ValueError
  | _ =>
      let old := suffix_of nm in
      let nm' := match old with
                 | [] => nm ++ sfx
                 | _ => firstn (length nm - length old) nm ++ sfx
                 end in
      Ok {| anchor := anchor p; parts := removelast (parts p) ++ [nm'] |}
  end.

Fixpoint list_prefixb (p s : list str) : bool :=
  match p, s with
  | [], _ => true
  | x :: p', y :: s' => str_eqb x y && list_prefixb p' s'
  | _ :: _, [] => false
  end.

(** [self.relative_to(other)]: [None] stands for the [ValueError]. *)
Definition relative_to (self other : Path) : option Path :=
  if (anchor self =? anchor other) && list_prefixb (parts other) (parts self)
  then Some {| anchor := 0; parts := skipn (length (parts other)) (parts self) |}
  else None.

(** ** The filesystem

    The directories and the files that exist, each under the spelling of
    its path: a path with a [..] segment is looked up as it is written.
    The tests [exists] and [is_dir] answer for every path; the errors with
    which [os.stat] can fail on a real system (a name that is too long, a
    directory that may not be read) are not part of the model, so what is
    stated of [correct_path] below is stated of the runs in which it
    returns. *)

Record FS := { dirs : list Path; files : list (Path * str) }.

Definition is_dir (fs : FS) (p : Path) : bool :=
  match parts p with
  | [] => true
  | _ => existsb (path_eqb p) (dirs fs)
  end.

Definition is_file (fs : FS) (p : Path) : bool :=
  existsb (fun e => path_eqb p (fst e)) (files fs).

Definition exists_ (fs : FS) (p : Path) : bool := is_dir fs p || is_file fs p.

Definition add_dir (fs : FS) (p : Path) : FS :=
  {| dirs := p :: dirs fs; files := files fs |}.

Fixpoint mkdir_chain (fs : FS) (a : nat) (done todo : list str) : res FS :=
  match todo with
  | [] => Ok fs
  | x :: todo' =>
      let p := {| anchor := a; parts := done ++ [x] |} in
      if is_file fs p then Raise OSError
      else mkdir_chain (if is_dir fs p then fs else add_dir fs p)
                       a (done ++ [x]) todo'
  end.

(** [p.mkdir(parents=True, exist_ok=True)]. *)
Definition mkdir_p (fs : FS) (p : Path) : res FS :=
  mkdir_chain fs (anchor p) [] (parts p).

(** [p.open("w")] and [f.write(text)]. *)
Definition write_text (fs : FS) (p : Path) (text : str) : res FS :=
  if is_dir fs p || negb (is_dir fs (parent p)) then Raise OSError
  else Ok {| dirs := dirs fs;
             files := (p, text)
                        :: filter (fun e => negb (path_eqb p (fst e))) (files fs) |}.

(** ** Constants and utilities *)

Definition EXPORT_DIR : str := lit "./exported".

Definition opt_last (s : str) : option ascii :=
  match s with
  | [] => None
  | _ => Some (last s chr_slash)
  end.

(** [format_slug]: [url[-1]] raises [IndexError] on the empty string. *)
Definition format_slug (url : str) : res str :=
  match opt_last url with
  | None => Raise IndexError
  | Some c =>
      let url := if negb (Ascii.eqb c chr_slash) then url ++ [chr_slash] else url in
      Ok (lower url)
  end.

(** [regressive_relative_to]: [limit] bounds the depth of the recursion, as
    the interpreter's recursion limit does. *)
Fixpoint regressive_relative_to (limit : nat) (from_ to : Path) : res Path :=
  match relative_to to from_ with
  | Some result => Ok result
  | None =>
      match limit with
      | 0 => Raise RecursionError
      | S limit' =>
          r <- regressive_relative_to limit' (parent from_) to ;;
          Ok (mkPath [lit ".."; path_str r])
      end
  end.

Definition render_link (limit : nat) (from_ to : Path) (text : str) : res str :=
  r <- regressive_relative_to limit from_ to ;;
  Ok (lit "[" ++ text ++ lit "](" ++ path_str r ++ lit ")").

(** One turn of the loop of [custom_re_sub]: [None] when the pattern is not
    found, and otherwise the text with the match replaced. *)
Definition sub_once (r : regex) (replacer : Match -> res str) (text : str)
  : option (res str) :=
  match search r text with
  | None => None
  | Some m =>
      Some (rep <- replacer m ;;
            Ok (firstn (m_start m) text ++ rep ++ skipn (m_end m + 1) text))
  end.

(** [custom_re_sub]: [fuel] bounds the number of turns of the loop. *)
Fixpoint custom_re_sub (fuel : nat) (r : regex) (replacer : Match -> res str)
         (text : str) : res str :=
  match sub_once r replacer text with
  | None => Ok text
  | Some step =>
      match fuel with
      | 0 => OutOfFuel
      | S fuel' => text' <- step ;; custom_re_sub fuel' r replacer text'
      end
  end.

(** [re.sub(r, replacer, s)] for a pattern that never matches the empty
    string: each search starts where the previous match ended.  [n] bounds
    the number of matches, and [length s] is enough. *)
Fixpoint re_sub_from (n : nat) (r : regex) (replacer : Match -> res str)
         (s : str) : res str :=
  match search r s with
  | None => Ok s
  | Some m =>
      match n with
      | 0 => OutOfFuel
      | S n' =>
          rep <- replacer m ;;
          rest <- re_sub_from n' r replacer (skipn (m_end m) s) ;;
          Ok (firstn (m_start m) s ++ rep ++ rest)
      end
  end.

Definition re_sub (r : regex) (replacer : Match -> res str) (s : str) : res str :=
  re_sub_from (length s) r replacer s.

(** ** Documents *)

Record Document := {
  id_ : Z;
  version : Z;
  slug : str;
  title : str;
  content : str;
  documentPHID : str;
  path : Path
}.

Definition set_path (d : Document) (p : Path) : Document :=
  {| id_ := id_ d; version := version d; slug := slug d; title := title d;
     content := content d; documentPHID := documentPHID d; path := p |}.

Definition set_content (d : Document) (c : str) : Document :=
  {| id_ := id_ d; version := version d; slug := slug d; title := title d;
     content := c; documentPHID := documentPHID d; path := path d |}.

(** A row of [phriction_content], in the order of the query. *)
Record Row := {
  r_id : Z;
  r_version : Z;
  r_slug : str;
  r_title : str;
  r_content : str;
  r_documentPHID : str
}.

(** [Document.__init__]: the provisional path, and the directories above it
    made on the way. *)
Definition Document_init (fs : FS) (r : Row) : res (Document * FS) :=
  let p := if str_eqb (r_slug r) (lit "/")
           then mkPath [EXPORT_DIR]
           else mkPath [EXPORT_DIR; r_slug r] in
  fs' <- (if negb (exists_ fs (parent p)) then mkdir_p fs (parent p) else Ok fs) ;;
  Ok ({| id_ := r_id r; version := r_version r; slug := r_slug r;
         title := r_title r; content := r_content r;
         documentPHID := r_documentPHID r; path := p |}, fs').

(** [Document.correct_path]. *)
Definition correct_path (fs : FS) (d : Document) : res Document :=
  if exists_ fs (path d) && is_dir fs (path d)
  then Ok (set_path d (path_join (path d) (lit "README.md")))
  else p <- with_suffix (path d) (lit ".md") ;; Ok (set_path d p).

(** [os.path.join(a, b)]. *)
Definition os_path_join (a b : str) : str :=
  if prefixb [chr_slash] b then b
  else match opt_last a with
       | None => a ++ b
       | Some c => if Ascii.eqb c chr_slash then a ++ b else a ++ chr_slash :: b
       end.

(** [Document.get_filename], which [main] never calls. *)
Definition get_filename (fs : FS) (d : Document) (base_dir : str)
  : res (str * FS) :=
  if str_eqb (slug d) (lit "/") then Ok (os_path_join base_dir (lit "README.md"), fs)
  else
    let dirs := filter (fun s => 0 <? length s) (split chr_slash (slug d)) in
    match dirs with
    | [] => Raise BadSlug
    | _ =>
        let filename := last dirs [] in
        let paths := removelast dirs in
        let pth := fold_left os_path_join paths base_dir in
        fs' <- (match pth with
                | [] => Raise OSError
                | _ => if is_dir fs (mkPath [pth]) then Ok fs
                       else mkdir_p fs (mkPath [pth])
                end) ;;
        let raw_complete := os_path_join pth filename in
        if exists_ fs' (mkPath [raw_complete])
        then Ok (os_path_join raw_complete (lit "README.md"), fs')
        else Ok (raw_complete ++ lit ".md", fs')
    end.

(** [Document.save]. *)
Definition save (fs : FS) (d : Document) : res FS :=
  write_text fs (path d) (content d).

(** ** Version selection and the slug index *)

Definition keep_max (max_versions : dict Document) (doc : Document)
  : dict Document :=
  match dict_get max_versions (documentPHID doc) with
  | Some contestant =>
      if (version contestant <? version doc)%Z
      then dict_set max_versions (documentPHID doc) doc
      else max_versions
  | None => dict_set max_versions (documentPHID doc) doc
  end.

Definition select_max_version_of_documents (docs : list Document)
  : list Document :=
  dict_values (fold_left keep_max docs []).

(** The documents that survive live in a store, the list [filtered_docs] of
    [main]; the slug index holds references into it (positions), so that a
    path corrected after the index was built is the path a lookup sees. *)
Definition store := list Document.

Definition deref (h : store) (i : nat) : res Document :=
  match nth_error h i with
  | Some d => Ok d
  | None => Raise Dangling
  end.

Fixpoint index_from (i : nat) (docs : list Document) (result : dict nat)
  : dict nat :=
  match docs with
  | [] => result
  | d :: docs' => index_from (S i) docs' (dict_set result (slug d) i)
  end.

Definition get_documents_by_slug (docs : store) : dict nat :=
  index_from 0 docs [].

(** ** Rewriting the content *)

Section Rewrite.
Variable limit : nat.            (* the recursion limit *)
Variable fuel : nat.             (* the bound on each rewriting loop *)
Variable h : store.
Variable docs_by_slug : dict nat.

Definition replace_a_raw_link (self : Document) (m : Match) : res str :=
  let url := group m 1 in
  let text := group m 2 in
  slug <- format_slug url ;;
  match dict_get docs_by_slug slug with
  | Some i =>
      d <- deref h i ;;
      render_link limit (parent (path self)) (path d) text
  | None => Ok (lit "[" ++ text ++ lit "](" ++ url ++ lit ")")
  end.

Definition replace_a_link_by_slug (self : Document) (m : Match) : res str :=
  let url := group m 1 in
  slug <- format_slug url ;;
  match dict_get docs_by_slug slug with
  | Some i =>
      d <- deref h i ;;
      render_link limit (parent (path self)) (path d) (title d)
  | None => Ok (lit "[" ++ slug ++ lit "](" ++ slug ++ lit ")")
  end.

Definition clean_links (self : Document) : res Document :=
  c1 <- re_sub LINK_REGEX (replace_a_raw_link self) (content self) ;;
  c2 <- custom_re_sub fuel INTERNAL_LINK_REGEX
                      (replace_a_link_by_slug self) c1 ;;
  Ok (set_content self c2).

Definition replace_a_header (m : Match) : res str :=
  Ok (repeat "#"%char (length (group m 1)) ++ lit " " ++ group m 2 ++ [NL]).

Definition clean_headers (self : Document) : res Document :=
  c <- custom_re_sub fuel HEADER_REGEX replace_a_header (content self) ;;
  Ok (set_content self c).

Definition clean_content (self : Document) : res Document :=
  let self := set_content self
                (lit "# " ++ title self ++ [NL; NL] ++ content self) in
  self <- clean_links self ;;
  clean_headers self.
End Rewrite.

(** ** The run *)

Fixpoint fetch_documents (fs : FS) (rows : list Row) : res (list Document * FS) :=
  match rows with
  | [] => Ok ([], fs)
  | r :: rows' =>
      '(d, fs1) <- Document_init fs r ;;
      '(ds, fs2) <- fetch_documents fs1 rows' ;;
      Ok (d :: ds, fs2)
  end.

Fixpoint map_res {A B} (f : A -> res B) (l : list A) : res (list B) :=
  match l with
  | [] => Ok []
  | a :: l' => b <- f a ;; bs <- map_res f l' ;; Ok (b :: bs)
  end.

Fixpoint replace_nth {A} (l : list A) (i : nat) (a : A) : list A :=
  match l, i with
  | [], _ => []
  | _ :: l', 0 => a :: l'
  | x :: l', S i' => x :: replace_nth l' i' a
  end.

(** The loop [for d in filtered_docs: d.clean_content(docs_by_slug)], one
    document of the store after the other. *)
Fixpoint clean_each (limit fuel : nat) (idx : dict nat) (todo : list nat)
         (h : store) : res store :=
  match todo with
  | [] => Ok h
  | i :: todo' =>
      d <- deref h i ;;
      d' <- clean_content limit fuel h idx d ;;
      clean_each limit fuel idx todo' (replace_nth h i d')
  end.

Fixpoint save_each (fs : FS) (docs : list Document) : res FS :=
  match docs with
  | [] => Ok fs
  | d :: docs' => fs' <- save fs d ;; save_each fs' docs'
  end.

Definition main (limit fuel : nat) (fs : FS) (rows : list Row) : res (store * FS) :=
  '(all_docs, fs1) <- fetch_documents fs rows ;;
  let filtered_docs := select_max_version_of_documents all_docs in
  let docs_by_slug := get_documents_by_slug filtered_docs in
  corrected <- map_res (correct_path fs1) filtered_docs ;;
  cleaned <- clean_each limit fuel docs_by_slug
                        (seq 0 (length corrected)) corrected ;;
  fs2 <- save_each fs1 cleaned ;;
  Ok (cleaned, fs2).


(** ** Paths under a root, and normalisation *)

Definition dotdot : str := lit "..".

Definition has_chr (c : ascii) (w : str) : bool :=
  existsb (fun x => Ascii.eqb x c) w.

(** A segment as [pathlib] keeps it: not empty, not [.], without [/]. *)
Definition seg_ok (x : str) : bool := keep_seg x && negb (has_chr chr_slash x).

Definition wf_path (p : Path) : bool := forallb seg_ok (parts p).

(** [p] lies under [r]: same anchor, and the segments of [r] first. *)
Definition under (r p : Path) : bool :=
  (anchor p =? anchor r) && list_prefixb (parts r) (parts p).




(** ** What a pattern matches

    [sem r s g s' g']: the pattern [r] can take a prefix of [s] and leave
    [s'], turning the groups [g] into [g'].  The matcher returns one of
    these ways (the first in its order) or none. *)

Fixpoint sem (r : regex) (s : str) (g : caps) (s' : str) (g' : caps) : Prop :=
  match r with
  | One a => exists c, s = c :: s' /\ atom_ok a c = true /\ g' = g
  | Star a => exists l, s = l ++ s' /\ forallb (atom_ok a) l = true /\ g' = g
  | Plus a =>
      exists c l, s = c :: l ++ s' /\ atom_ok a c = true /\
                  forallb (atom_ok a) l = true /\ g' = g
  | Opt a =>
      (s = s' \/ exists c, s = c :: s' /\ atom_ok a c = true) /\ g' = g
  | Grp n r1 =>
      exists g1, sem r1 s g s' g1 /\
                 g' = (n, firstn (length s - length s') s) :: g1
  | Cat r1 r2 => exists s1 g1, sem r1 s g s1 g1 /\ sem r2 s1 g1 s' g'
  end.

(** The result of a computation is not the [IndexError] of [url[-1]]. *)
Definition no_index_error {A} (x : res A) : Prop := x <> Raise IndexError.

(** ** The [ellipsis] utility *)

Definition TAB : ascii := "009"%char.

(** [s.replace("\n", "\t")]. *)
Definition replace_nl (s : str) : str :=
  map (fun c => if Ascii.eqb c NL then TAB else c) s.

(** [s[:k]] for an integer [k]: a negative [k] counts from the end. *)
Definition slice_to (s : str) (k : Z) : str :=
  if (0 <=? k)%Z then firstn (Z.to_nat k) s
  else firstn (Z.to_nat (Z.of_nat (length s) + k)) s.

Definition ellipsis (s : str) (n : Z) : str :=
  let s := replace_nl s in
  if (n <? Z.of_nat (length s))%Z then slice_to s (n - 2) ++ lit ".."
  else s.

(** ** Measures and shapes used in the statements *)

Definition ends_with (suf s : str) : Prop := exists pre, s = pre ++ suf.

(** The number of [=] in a text. *)
Definition count_eq (s : str) : nat := count_occ ascii_dec s "="%char.

(** The tail of [LINK_REGEX], after the url group. *)
Definition link_tail : regex :=
  cat [ Star Space; L "|"; Star Space;
        Grp 2 (Cat (Star Dot) (One NonSpace)); Star Space; L "]" ] (L "]").

Definition chr_bar : ascii := "|"%char.

(** The keys of a dictionary filled from [l], in the order of their first
    appearance. *)
Definition first_seen (l : list str) : list str :=
  fold_left (fun acc x => if existsb (str_eqb x) acc then acc else acc ++ [x])
            l [].

(** ** A content on which the bare reference loop does not end *)

(** A document whose title holds a reference to its own slug. *)
Definition loop_doc : Document :=
  {| id_ := 1; version := 1; slug := lit "s/"; title := lit "x[[s]] ";
     content := lit "[[s]] "; documentPHID := lit "P";
     path := mkPath [lit "exported/s.md"] |}.

Definition loop_store : store := [loop_doc].
Definition loop_index : dict nat := get_documents_by_slug loop_store.

(** [s] holds two closing brackets side by side. *)
Fixpoint has_close (s : str) : bool :=
  match s with
  | c1 :: t =>
      match t with
      | c2 :: _ => (Ascii.eqb c1 "]" && Ascii.eqb c2 "]") || has_close t
      | [] => false
      end
  | [] => false
  end.

(** No match of the bare reference pattern starts within [p], whatever
    follows it. *)
Definition skipped (p : str) : Prop :=
  forall off rest,
    search_from INTERNAL_LINK_REGEX off (p ++ rest)
    = search_from INTERNAL_LINK_REGEX (off + length p) rest.

(** The texts that the loop goes through on [loop_doc]: the reference,
    with a text before it in which nothing matches and a text after it
    without closing brackets. *)
Definition loops (text : str) : Prop :=
  exists p q, text = p ++ lit "[[s]] " ++ q /\ skipped p /\ has_close q = false.

(** A document whose slug is absolute, after [correct_path], and a
    document that refers to it. *)
Definition far_doc : Document :=
  {| id_ := 1; version := 1; slug := lit "/x/"; title := lit "X";
     content := lit ""; documentPHID := lit "P1";
     path := mkPath [lit "/x.md"] |}.

Definition near_doc : Document :=
  {| id_ := 2; version := 1; slug := lit "a/"; title := lit "A";
     content := lit "[[/x]]"; documentPHID := lit "P2";
     path := mkPath [lit "exported/a.md"] |}.

Definition far_store : store := [far_doc; near_doc].
Definition far_index : dict nat := get_documents_by_slug far_store.

(** ** Predicates of the statements *)

(** What the dictionary of [select_max_version_of_documents] holds once
    the records [seen] have gone through the loop. *)
Definition first_max (seen : list Document) (d : Document) : Prop :=
  exists l1 l2,
    seen = l1 ++ d :: l2 /\
    (forall e, In e l1 -> documentPHID e = documentPHID d ->
               (version e < version d)%Z) /\
    (forall e, In e l2 -> documentPHID e = documentPHID d ->
               (version e <= version d)%Z).

Record max_inv (seen : list Document) (mv : dict Document) : Prop := {
  inv_nodup : NoDup (dict_keys mv);
  inv_keys : forall p, In p (map documentPHID seen) <-> In p (dict_keys mv);
  inv_best : forall k d, In (k, d) mv -> k = documentPHID d /\ first_max seen d
}.

(** What the group [(.*\S)] of the two link patterns holds: characters
    other than a line feed, the last of which is not white space. *)
Definition slug_like (u : str) : Prop :=
  exists l c, u = l ++ [c] /\ forallb (atom_ok Dot) l = true /\
              is_space c = false.

(** The tail of the bare reference pattern, after the slug group. *)
Definition closing : regex := cat [Star Space; L "]"] (L "]").

(** ** Inputs used in the examples *)

Definition empty_fs : FS := {| dirs := []; files := [] |}.

Definition mk_row (s t c : string) (v : Z) (ph : string) : Row :=
  {| r_id := 1; r_version := v; r_slug := lit s; r_title := lit t;
     r_content := lit c; r_documentPHID := lit ph |}.

(** A document as [Document_init] builds it from a row with slug [s] and
    content [c]. *)
Definition mk_doc (s c : string) : Document :=
  {| id_ := 1; version := 1; slug := lit s; title := lit "T";
     content := lit c; documentPHID := lit "P";
     path := if str_eqb (lit s) (lit "/") then mkPath [EXPORT_DIR]
             else mkPath [EXPORT_DIR; lit s] |}.

Definition res_map {A B} (f : A -> B) (r : res A) : res B :=
  x <- r ;; Ok (f x).

Definition paths_of (r : res (store * FS)) : res (list str) :=
  res_map (fun x => map (fun d => path_str (path d)) (fst x)) r.

(** What C2 says of a store: every document is found in the slug index
    under the normalized form of its slug. *)
Definition found_under_normalized_slug (docs : store) : Prop :=
  forall d, In d docs ->
    exists k i, format_slug (slug d) = Ok k /\
                dict_get (get_documents_by_slug docs) k = Some i /\
                deref docs i = Ok d.

(** A store of two documents after [correct_path], and its index. *)
Definition two_docs : store :=
  [ set_path (mk_doc "a/" "see [[ A/B ]]") (mkPath [lit "exported/a/README.md"]);
    set_path (mk_doc "a/b/" "up [[a]]") (mkPath [lit "exported/a/b.md"]) ].

Definition two_index : dict nat := get_documents_by_slug two_docs.

(** A run on four rows, two of them versions of one document. *)
Definition demo_rows : list Row :=
  [ mk_row "/" "Home" "[[a/b]]" 1 "PHID-1";
    mk_row "a/" "A" "x" 1 "PHID-2";
    mk_row "a/b/" "B" "old" 1 "PHID-3";
    mk_row "a/b/" "B" "new" 2 "PHID-3" ].

Definition demo_docs : store :=
  Eval vm_compute in
    match main 10 10 empty_fs demo_rows with
    | Ok (docs, _) => docs
    | _ => []
    end.

Definition demo_fs : FS :=
  Eval vm_compute in
    match main 10 10 empty_fs demo_rows with
    | Ok (_, fs) => fs
    | _ => empty_fs
    end.

(** What a document of the result of [main] keeps of the row it was
    built from. *)
Definition built_from (r : Row) (d : Document) : Prop :=
  id_ d = r_id r /\ version d = r_version r /\ slug d = r_slug r /\
  title d = r_title r /\ documentPHID d = r_documentPHID r.

(** * Properties *)

Unset Implicit Arguments.

(** ** Strings and dictionaries *)

Lemma str_eqb_eq (a b : str) : str_eqb a b = true <-> a = b.
Proof.
  revert b; induction a as [|x a IH]; intros [|y b]; simpl; split;
    try congruence; try reflexivity.
  - intros H. apply andb_true_iff in H as [Hx Hr].
    apply Ascii.eqb_eq in Hx. apply IH in Hr. congruence.
  - intros H. injection H as -> ->. rewrite Ascii.eqb_refl. simpl.
    now apply IH.
Qed.

Lemma str_eqb_refl (a : str) : str_eqb a a = true.
Proof. now apply str_eqb_eq. Qed.

Lemma str_eqb_neq (a b : str) : str_eqb a b = false <-> a <> b.
Proof.
  split.
  - intros H E. apply str_eqb_eq in E. congruence.
  - intros H. destruct (str_eqb a b) eqn:E; [|reflexivity].
    apply str_eqb_eq in E. contradiction.
Qed.

Section DictFacts.
Variable V : Type.
Implicit Types (d : dict V) (k : str) (v : V).

Lemma dict_get_In d k v : dict_get d k = Some v -> In (k, v) d.
Proof.
  induction d as [|[k' v'] d IH]; simpl; [discriminate|].
  destruct (str_eqb k' k) eqn:E.
  - apply str_eqb_eq in E. intros [= ->]. left. now subst.
  - intros H. right. auto.
Qed.

Lemma dict_get_None d k : dict_get d k = None <-> ~ In k (dict_keys d).
Proof.
  induction d as [|[k' v'] d IH]; simpl.
  - split; auto.
  - destruct (str_eqb k' k) eqn:E.
    + apply str_eqb_eq in E. split; [discriminate|]. intros H. exfalso. auto.
    + apply str_eqb_neq in E. rewrite IH. split.
      * intros H [H1|H1]; auto.
      * intros H H1. auto.
Qed.

Lemma In_dict_get d k v :
  NoDup (dict_keys d) -> In (k, v) d -> dict_get d k = Some v.
Proof.
  induction d as [|[k' v'] d IH]; simpl; [tauto|].
  intros ND [H|H].
  - injection H as -> ->. now rewrite str_eqb_refl.
  - inversion ND as [|? ? Hn ND']; subst.
    destruct (str_eqb k' k) eqn:E.
    + apply str_eqb_eq in E. subst. exfalso. apply Hn.
      change k with (fst (k, v)). now apply in_map.
    + auto.
Qed.

Lemma dict_keys_set_old d k v v0 :
  dict_get d k = Some v0 -> dict_keys (dict_set d k v) = dict_keys d.
Proof.
  induction d as [|[k' v'] d IH]; simpl; [discriminate|].
  destruct (str_eqb k' k) eqn:E; simpl; [reflexivity|].
  intros H. f_equal. auto.
Qed.

Lemma dict_keys_set_new d k v :
  dict_get d k = None -> dict_keys (dict_set d k v) = dict_keys d ++ [k].
Proof.
  induction d as [|[k' v'] d IH]; simpl; [reflexivity|].
  destruct (str_eqb k' k) eqn:E; simpl; [discriminate|].
  intros H. f_equal. auto.
Qed.

Lemma In_dict_set d k v k1 v1 :
  NoDup (dict_keys d) ->
  In (k1, v1) (dict_set d k v) ->
  (k1 = k /\ v1 = v) \/ (k1 <> k /\ In (k1, v1) d).
Proof.
  induction d as [|[k' v'] d IH]; simpl.
  - intros _ [H|[]]. injection H as <- <-. now left.
  - intros ND. inversion ND as [|? ? Hn ND']; subst.
    destruct (str_eqb k' k) eqn:E; simpl.
    + apply str_eqb_eq in E. subst k'. intros [H|H].
      * injection H as <- <-. now left.
      * right. split; [|now right]. intros ->. apply Hn.
        change k with (fst (k, v1)). now apply in_map.
    + apply str_eqb_neq in E. intros [H|H].
      * injection H as <- <-. right. split; [assumption|now left].
      * destruct (IH ND' H) as [?|[? ?]]; [now left|right; auto].
Qed.

Lemma dict_get_set_same d k v : dict_get (dict_set d k v) k = Some v.
Proof.
  induction d as [|[k' v'] d IH]; simpl.
  - now rewrite str_eqb_refl.
  - destruct (str_eqb k' k) eqn:E; simpl; now rewrite E.
Qed.

Lemma dict_get_set_other d k v k1 :
  k1 <> k -> dict_get (dict_set d k v) k1 = dict_get d k1.
Proof.
  intros Hk. induction d as [|[k' v'] d IH]; simpl.
  - assert (E : str_eqb k k1 = false) by (apply str_eqb_neq; congruence).
    now rewrite E.
  - destruct (str_eqb k' k) eqn:E; simpl.
    + apply str_eqb_eq in E. subst k'.
      assert (E : str_eqb k k1 = false) by (apply str_eqb_neq; congruence).
      now rewrite E.
    + now rewrite IH.
Qed.
End DictFacts.

(** ** Version selection *)

Lemma first_max_snoc_other seen d doc :
  first_max seen d -> documentPHID doc <> documentPHID d ->
  first_max (seen ++ [doc]) d.
Proof.
  intros (l1 & l2 & -> & H1 & H2) Hne.
  exists l1, (l2 ++ [doc]). rewrite <- app_assoc. simpl.
  repeat split; auto.
  intros e He Hp. apply in_app_or in He as [He|[<-|[]]]; auto.
  congruence.
Qed.

Lemma first_max_snoc_le seen d doc :
  first_max seen d -> (version doc <= version d)%Z ->
  first_max (seen ++ [doc]) d.
Proof.
  intros (l1 & l2 & -> & H1 & H2) Hle.
  exists l1, (l2 ++ [doc]). rewrite <- app_assoc. simpl.
  repeat split; auto.
  intros e He Hp. apply in_app_or in He as [He|[<-|[]]]; auto.
Qed.

Lemma first_max_snoc_gt seen c doc :
  first_max seen c -> documentPHID c = documentPHID doc ->
  (version c < version doc)%Z ->
  first_max (seen ++ [doc]) doc.
Proof.
  intros (l1 & l2 & -> & H1 & H2) Hp Hlt.
  exists (l1 ++ c :: l2), []. repeat split; [|intros e []].
  intros e He Hpe. apply in_app_or in He as [He|[<-|He]].
  - specialize (H1 e He). rewrite Hp in H1. specialize (H1 Hpe). lia.
  - assumption.
  - specialize (H2 e He). rewrite Hp in H2. specialize (H2 Hpe). lia.
Qed.

Lemma first_max_snoc_new seen doc :
  ~ In (documentPHID doc) (map documentPHID seen) ->
  first_max (seen ++ [doc]) doc.
Proof.
  intros Hn. exists seen, []. repeat split; [|intros e []].
  intros e He Hp. exfalso. apply Hn. rewrite <- Hp. now apply in_map.
Qed.

Lemma keep_max_inv seen mv doc :
  max_inv seen mv -> max_inv (seen ++ [doc]) (keep_max mv doc).
Proof.
  intros [ND HK HB]. unfold keep_max.
  destruct (dict_get mv (documentPHID doc)) as [c|] eqn:G.
  - pose proof (dict_get_In _ _ _ _ G) as Hin.
    destruct (HB _ _ Hin) as [Hc Hfm].
    destruct (version c <? version doc)%Z eqn:Lt.
    + apply Z.ltb_lt in Lt. split.
      * now rewrite (dict_keys_set_old _ _ _ doc _ G).
      * intros p. rewrite (dict_keys_set_old _ _ _ doc _ G), map_app, in_app_iff.
        rewrite HK. simpl. split; [|tauto].
        intros [H|[<-|[]]]; [assumption|].
        change (documentPHID doc) with (fst (documentPHID doc, c)).
        now apply in_map.
      * intros k d Hd. apply In_dict_set in Hd as [[-> ->]|[Hk Hd]]; [| |assumption].
        -- split; [reflexivity|]. eapply first_max_snoc_gt; eauto.
        -- destruct (HB _ _ Hd) as [-> Hf]. split; [reflexivity|].
           apply first_max_snoc_other; congruence.
    + apply Z.ltb_ge in Lt. split; [assumption| |].
      * intros p. rewrite map_app, in_app_iff, HK. simpl. split; [|tauto].
        intros [H|[<-|[]]]; [assumption|].
        change (documentPHID doc) with (fst (documentPHID doc, c)).
        now apply in_map.
      * intros k d Hd. destruct (HB _ _ Hd) as [-> Hf]. split; [reflexivity|].
        destruct (list_eq_dec ascii_dec (documentPHID doc) (documentPHID d)) as [E|E].
        -- rewrite E in G. rewrite (In_dict_get _ _ _ _ ND Hd) in G.
           injection G as ->. now apply first_max_snoc_le.
        -- now apply first_max_snoc_other.
  - pose proof G as Hn. apply dict_get_None in Hn. split.
    + rewrite (dict_keys_set_new _ _ _ doc G).
      apply NoDup_app; [assumption|repeat constructor; auto|].
      intros x Hx [<-|[]]. contradiction.
    + intros p. rewrite (dict_keys_set_new _ _ _ doc G), map_app, !in_app_iff, HK.
      reflexivity.
    + intros k d Hd. apply In_dict_set in Hd as [[-> ->]|[Hk Hd]]; [| |assumption].
      * split; [reflexivity|]. apply first_max_snoc_new. now rewrite HK.
      * destruct (HB _ _ Hd) as [-> Hf]. split; [reflexivity|].
        apply first_max_snoc_other; congruence.
Qed.

Lemma fold_keep_max_inv docs seen mv :
  max_inv seen mv -> max_inv (seen ++ docs) (fold_left keep_max docs mv).
Proof.
  revert seen mv; induction docs as [|doc docs IH]; intros seen mv H; simpl.
  - now rewrite app_nil_r.
  - replace (seen ++ doc :: docs) with ((seen ++ [doc]) ++ docs)
      by (now rewrite <- app_assoc).
    apply IH. now apply keep_max_inv.
Qed.

Lemma max_inv_nil : max_inv [] [].
Proof.
  split; simpl.
  - constructor.
  - tauto.
  - intros k d [].
Qed.

Lemma values_phids (mv : dict Document) :
  (forall k d, In (k, d) mv -> k = documentPHID d) ->
  map documentPHID (dict_values mv) = dict_keys mv.
Proof.
  unfold dict_values, dict_keys. induction mv as [|[k d] mv IH]; simpl; intros H.
  - reflexivity.
  - f_equal.
    + symmetry. apply H. now left.
    + apply IH. intros k' d' Hd. apply H. now right.
Qed.

(** C1: version selection keeps exactly one document for each
    documentPHID of the input (the identifiers of the output are pairwise
    different and are those of the input), and the document kept for an
    identifier is the first record of the input that carries the greatest
    version among the records with that identifier: every earlier record
    with the identifier has a strictly smaller version, every later one
    a smaller or equal version. *)
Theorem select_max_version_one_per_phid (docs : list Document) :
  NoDup (map documentPHID (select_max_version_of_documents docs)) /\
  (forall p, In p (map documentPHID docs) <->
             In p (map documentPHID (select_max_version_of_documents docs))) /\
  (forall d, In d (select_max_version_of_documents docs) -> first_max docs d).
Proof.
  pose proof (fold_keep_max_inv docs [] [] max_inv_nil) as [ND HK HB].
  simpl in *. unfold select_max_version_of_documents.
  assert (E : map documentPHID (dict_values (fold_left keep_max docs []))
              = dict_keys (fold_left keep_max docs [])).
  { apply values_phids. intros k d Hd. now destruct (HB _ _ Hd). }
  rewrite E. repeat split; try assumption; try apply HK.
  intros d Hd. unfold dict_values in Hd. apply in_map_iff in Hd as [[k d'] [<- Hd]].
  now destruct (HB _ _ Hd).
Qed.


(** ** The slug index *)

Lemma index_from_absent docs i0 acc k :
  (forall e, In e docs -> slug e <> k) ->
  dict_get (index_from i0 docs acc) k = dict_get acc k.
Proof.
  revert i0 acc; induction docs as [|d docs IH]; intros i0 acc H; simpl.
  - reflexivity.
  - rewrite IH by (intros e He; apply H; now right).
    apply dict_get_set_other. intros E. apply (H d); [now left|congruence].
Qed.

Lemma index_from_last docs : forall i0 acc n d,
  nth_error docs n = Some d ->
  (forall j e, n < j -> nth_error docs j = Some e -> slug e <> slug d) ->
  dict_get (index_from i0 docs acc) (slug d) = Some (i0 + n).
Proof.
  induction docs as [|x docs IH]; intros i0 acc [|n] d Hn Hlast; simpl in *;
    try discriminate.
  - injection Hn as ->. rewrite index_from_absent.
    + rewrite dict_get_set_same. f_equal. lia.
    + intros e He. apply In_nth_error in He as [j Hj].
      apply (Hlast (S j)); [lia|exact Hj].
  - rewrite (IH (S i0) _ n d Hn).
    + f_equal. lia.
    + intros j e Hj He. apply (Hlast (S j)); [lia|exact He].
Qed.

(** C2, as the code has it: the index is keyed by the slug as stored, not
    by its normalized form, and a later document with the same slug
    replaces an earlier one.  A document whose slug is already normalized
    and is not the slug of a later document is found under the normalized
    slug. *)
Theorem slug_index_finds_normalized_last (docs : store) (i : nat)
        (d : Document) (k : str) :
  nth_error docs i = Some d ->
  format_slug (slug d) = Ok k ->
  k = slug d ->
  (forall j e, i < j -> nth_error docs j = Some e -> slug e <> slug d) ->
  dict_get (get_documents_by_slug docs) k = Some i /\ deref docs i = Ok d.
Proof.
  intros Hn _ -> Hlast. split.
  - unfold get_documents_by_slug.
    now rewrite (index_from_last docs 0 [] i d Hn Hlast).
  - unfold deref. now rewrite Hn.
Qed.

Lemma slug_index_finds_normalized_last_witness :
  let a := mk_doc "a/" "" in
  let b := mk_doc "a/b/" "" in
  dict_get (get_documents_by_slug [a; b]) (lit "a/") = Some 0 /\
  deref [a; b] 0 = Ok a.
Proof.
  intros a b.
  apply (slug_index_finds_normalized_last [a; b] 0 a (lit "a/")).
  - reflexivity.
  - reflexivity.
  - reflexivity.
  - intros j e Hj He. destruct j as [|[|j]]; [lia| |].
    + injection He as <-. discriminate.
    + destruct j; discriminate.
Defined.

(** C2 fails as stated: a document stored under the slug [Projects/Plan]
    is indexed under that spelling and is not found under
    [projects/plan/]; and of two documents with the slug [a/] the index
    keeps the second only. *)
Lemma slug_index_counterexample :
  ~ found_under_normalized_slug [mk_doc "Projects/Plan" ""] /\
  ~ found_under_normalized_slug [mk_doc "a/" "one"; mk_doc "a/" "two"].
Proof.
  split; intros H.
  - destruct (H (mk_doc "Projects/Plan" "") (or_introl eq_refl))
      as (k & i & Hk & Hi & _).
    vm_compute in Hk. injection Hk as <-. vm_compute in Hi. discriminate.
  - destruct (H (mk_doc "a/" "one") (or_introl eq_refl))
      as (k & i & Hk & Hi & Hd).
    vm_compute in Hk. injection Hk as <-. vm_compute in Hi.
    injection Hi as <-. vm_compute in Hd. discriminate.
Qed.

(** ** The rewriting loop on concrete contents *)

(** C3: the loop of [custom_re_sub] drops the character that follows each
    match.  With no document in the index, the bare reference in
    [[[foo]]. Next] is replaced and the full stop after it is lost; in
    [= Top = x] the space after the heading is lost. *)
Theorem custom_re_sub_drops_following_char :
  res_map content (clean_links 10 10 [] [] (mk_doc "x/" "[[foo]]. Next"))
  = Ok (lit "[foo/](foo/) Next") /\
  res_map content (clean_headers 10 (mk_doc "x/" "= Top = x"))
  = Ok (lit "# Top " ++ [NL] ++ lit "x").
Proof. split; vm_compute; reflexivity. Qed.

(** C6: the greedy second group of [HEADER_REGEX] takes all but the last [=] of
    the closing run, and what it leaves of the line stays in the heading:
    [== Section ==] becomes [## Section =] and a line feed, [= Top =]
    becomes [# Top], a space and a line feed. *)
Theorem clean_headers_keeps_delimiter_residue :
  res_map content (clean_headers 10 (mk_doc "x/" "== Section =="))
  = Ok (lit "## Section =" ++ [NL]) /\
  res_map content (clean_headers 10 (mk_doc "x/" "= Top ="))
  = Ok (lit "# Top " ++ [NL]) /\
  res_map (fun m => group m 2) 
          (match search HEADER_REGEX (lit "== Section ==") with
           | Some m => Ok m
           | None => Raise ValueError
           end)
  = Ok (lit "Section =").
Proof. repeat split; vm_compute; reflexivity. Qed.

(** ** Path resolution on concrete runs *)

(** C7: a run over the root document alone, started where the export
    directory does not exist, gives it the path [exported.md], beside the
    export root and not in it; [get_filename], which the run does not
    call, answers [./exported/README.md] for the same document. *)
Theorem root_document_alone_leaves_export_root :
  paths_of (main 10 10 empty_fs [mk_row "/" "Home" "x" 1 "PHID-1"])
  = Ok [lit "exported.md"] /\
  res_map fst (get_filename empty_fs (mk_doc "/" "x") EXPORT_DIR)
  = Ok (lit "./exported/README.md").
Proof. split; vm_compute; reflexivity. Qed.

(** C8: a slug without any segment goes through [Document_init] and
    [correct_path] without an exception, whatever the filesystem holds:
    the empty slug is given the path of the root document, and [//] is
    given [//README.md], outside the export root.  [get_filename] raises
    for both, and the run does not call it. *)
Theorem malformed_slug_is_given_a_path (fs : FS) :
  (exists d fs' d',
      Document_init fs (mk_row "" "T" "c" 1 "PHID-1") = Ok (d, fs') /\
      correct_path fs' d = Ok d' /\
      (path_str (path d') = lit "exported/README.md" \/
       path_str (path d') = lit "exported.md")) /\
  (exists d fs' d',
      Document_init fs (mk_row "//" "T" "c" 1 "PHID-1") = Ok (d, fs') /\
      correct_path fs' d = Ok d' /\
      path_str (path d') = lit "//README.md") /\
  get_filename fs (mk_doc "" "c") EXPORT_DIR = Raise BadSlug /\
  get_filename fs (mk_doc "//" "c") EXPORT_DIR = Raise BadSlug.
Proof.
  repeat split.
  - assert (H : exists d, Document_init fs (mk_row "" "T" "c" 1 "PHID-1")
                          = Ok (d, fs) /\ path d = mkPath [EXPORT_DIR])
      by (eexists; split; reflexivity).
    destruct H as (d & Hd & Hp). exists d, fs.
    unfold correct_path. rewrite Hp.
    destruct (exists_ fs _ && is_dir fs _); eexists;
      (split; [exact Hd|split; [reflexivity|]]).
    + left. reflexivity.
    + right. reflexivity.
  - do 3 eexists. split; [reflexivity|]. split; reflexivity.
Qed.

(** ** Paths: printing and reading back *)

Lemma split_no_sep sep w : has_chr sep w = false -> split sep w = [w].
Proof.
  induction w as [|c w IH]; simpl; [reflexivity|].
  intros H. apply orb_false_iff in H as [Hc Hw].
  rewrite Hc, (IH Hw). reflexivity.
Qed.

Lemma split_app_sep sep w t :
  has_chr sep w = false -> split sep (w ++ sep :: t) = w :: split sep t.
Proof.
  induction w as [|c w IH]; simpl.
  - now rewrite Ascii.eqb_refl.
  - intros H. apply orb_false_iff in H as [Hc Hw].
    rewrite Hc, (IH Hw). reflexivity.
Qed.

Lemma seg_ok_no_slash x : seg_ok x = true -> has_chr chr_slash x = false.
Proof.
  unfold seg_ok. intros H. apply andb_true_iff in H as [_ H].
  now apply negb_true_iff in H.
Qed.

Lemma seg_ok_keep x : seg_ok x = true -> keep_seg x = true.
Proof. unfold seg_ok. intros H. now apply andb_true_iff in H as [H _]. Qed.

Lemma split_join ps :
  ps <> [] -> forallb seg_ok ps = true ->
  split chr_slash (join chr_slash ps) = ps.
Proof.
  induction ps as [|w ps IH]; [congruence|]. intros _ H.
  simpl in H. apply andb_true_iff in H as [Hw Hps].
  destruct ps as [|w' ps].
  - simpl. apply split_no_sep. now apply seg_ok_no_slash.
  - change (join chr_slash (w :: w' :: ps))
      with (w ++ chr_slash :: join chr_slash (w' :: ps)).
    rewrite split_app_sep by now apply seg_ok_no_slash.
    f_equal. apply IH; [discriminate|assumption].
Qed.

Lemma filter_keep_seg ps : forallb seg_ok ps = true -> filter keep_seg ps = ps.
Proof.
  induction ps as [|w ps IH]; simpl; [reflexivity|].
  intros H. apply andb_true_iff in H as [Hw Hps].
  rewrite (seg_ok_keep _ Hw), (IH Hps). reflexivity.
Qed.

Lemma segments_join ps :
  ps <> [] -> forallb seg_ok ps = true -> segments (join chr_slash ps) = ps.
Proof.
  intros Hne H. unfold segments. rewrite split_join by assumption.
  now apply filter_keep_seg.
Qed.

Lemma join_head w ps :
  seg_ok w = true ->
  exists c t, join chr_slash (w :: ps) = c :: t /\ Ascii.eqb c chr_slash = false.
Proof.
  intros H. pose proof (seg_ok_no_slash _ H) as Hs.
  pose proof (seg_ok_keep _ H) as Hk.
  destruct w as [|c w]; [discriminate|].
  simpl in Hs. apply orb_false_iff in Hs as [Hc _].
  destruct ps; simpl; eauto.
Qed.

Lemma parse_parts_str (r : Path) :
  anchor r = 0 -> wf_path r = true ->
  parse_parts [path_str r] = (0, parts r).
Proof.
  unfold wf_path, path_str. intros -> H.
  destruct (parts r) as [|w ps] eqn:E; [reflexivity|].
  pose proof H as H'. simpl in H'. apply andb_true_iff in H' as [Hw _].
  destruct (join_head w ps Hw) as (c & t & Hj & Hc).
  cbn [parse_parts]. unfold splitroot. rewrite Hj. cbn [lstrip_slash].
  rewrite Hc, <- Hj.
  rewrite segments_join by (assumption || discriminate).
  now rewrite app_nil_r.
Qed.

(** [Path('..', str(r))] puts one [..] before the segments of [r]. *)
Lemma mkPath_dotdot (r : Path) :
  anchor r = 0 -> wf_path r = true ->
  mkPath [dotdot; path_str r] = {| anchor := 0; parts := dotdot :: parts r |}.
Proof.
  intros Ha Hw. unfold mkPath.
  change (parse_parts [dotdot; path_str r])
    with (let (rt, ps) := parse_parts [path_str r] in
          if negb (rt =? 0) then (rt, ps)
          else let (rt', rel) := splitroot dotdot in (rt', segments rel ++ ps)).
  rewrite (parse_parts_str r Ha Hw). reflexivity.
Qed.


Lemma split_pieces_no_sep sep s :
  forallb (fun w => negb (has_chr sep w)) (split sep s) = true.
Proof.
  induction s as [|c s IH]; simpl; [reflexivity|].
  destruct (Ascii.eqb c sep) eqn:E; simpl; [assumption|].
  destruct (split sep s) as [|w ws]; simpl in *.
  - now rewrite E.
  - now rewrite E.
Qed.

Lemma segments_ok rel : forallb seg_ok (segments rel) = true.
Proof.
  unfold segments. pose proof (split_pieces_no_sep chr_slash rel) as H.
  induction (split chr_slash rel) as [|w ws IH]; simpl in *; [reflexivity|].
  apply andb_true_iff in H as [Hw Hws].
  destruct (keep_seg w) eqn:K; simpl; [|auto].
  unfold seg_ok at 1. rewrite K, Hw. simpl. auto.
Qed.

Lemma parse_parts_ok args : forallb seg_ok (snd (parse_parts args)) = true.
Proof.
  induction args as [|a args IH]; simpl; [reflexivity|].
  destruct (parse_parts args) as [rt ps]. simpl in IH.
  destruct (negb (rt =? 0)); [assumption|].
  destruct (splitroot a) as [rt' rel]. simpl.
  rewrite forallb_app, segments_ok. assumption.
Qed.

(** Every path that the constructor builds has segments of the kept kind. *)
Lemma mkPath_wf args : wf_path (mkPath args) = true.
Proof.
  unfold wf_path, mkPath. pose proof (parse_parts_ok args) as H.
  destruct (parse_parts args). exact H.
Qed.

(** ** The relative link resolver *)

Lemma list_prefixb_split p s :
  list_prefixb p s = true -> s = p ++ skipn (length p) s.
Proof.
  revert s; induction p as [|x p IH]; intros [|y s]; simpl; try discriminate;
    try reflexivity.
  intros H. apply andb_true_iff in H as [Hx Hp].
  apply str_eqb_eq in Hx. subst y. f_equal. now apply IH.
Qed.

Lemma list_prefixb_app p r : list_prefixb p (p ++ r) = true.
Proof.
  induction p as [|x p IH]; simpl; [reflexivity|].
  now rewrite str_eqb_refl.
Qed.

Lemma length_parent (P : Path) : length (parts (parent P)) = pred (length (parts P)).
Proof.
  simpl. rewrite removelast_firstn_len, length_firstn. lia.
Qed.

Lemma iter_parent_parts (j : nat) (P : Path) :
  anchor (Nat.iter j parent P) = anchor P /\
  parts (Nat.iter j parent P) = firstn (length (parts P) - j) (parts P).
Proof.
  induction j as [|j [IHa IHp]]; simpl.
  - split; [reflexivity|]. now rewrite Nat.sub_0_r, firstn_all.
  - split; [assumption|]. rewrite IHp.
    destruct (length (parts P) - j) as [|m] eqn:E.
    + replace (length (parts P) - S j) with 0 by lia. reflexivity.
    + replace (length (parts P) - S j) with m by lia.
      apply removelast_firstn. lia.
Qed.

Lemma forallb_skipn {A} (f : A -> bool) n l :
  forallb f l = true -> forallb f (skipn n l) = true.
Proof.
  revert l; induction n as [|n IH]; intros [|x l]; simpl; auto.
  intros H. apply andb_true_iff in H as [_ H]. auto.
Qed.


Lemma forallb_repeat {A} (f : A -> bool) x n :
  f x = true -> forallb f (repeat x n) = true.
Proof. intros H. induction n; simpl; [reflexivity|]. now rewrite H. Qed.

Lemma relative_to_parts (Q P r : Path) :
  relative_to Q P = Some r ->
  anchor r = 0 /\ parts Q = parts P ++ parts r /\
  r = {| anchor := 0; parts := parts r |}.
Proof.
  unfold relative_to.
  destruct ((anchor Q =? anchor P) && list_prefixb (parts P) (parts Q)) eqn:E;
    [|discriminate].
  apply andb_true_iff in E as [_ E]. intros [= <-]. simpl.
  repeat split. now apply list_prefixb_split.
Qed.

Lemma relative_to_wf (Q P r : Path) :
  wf_path Q = true -> relative_to Q P = Some r -> wf_path r = true.
Proof.
  unfold relative_to, wf_path. intros H.
  destruct (_ && _); [|discriminate]. intros [= <-]. simpl.
  now apply forallb_skipn.
Qed.

(** The resolver climbs from [P] to the first of its ancestors that [Q]
    is relative to, [k] levels up; this takes [k] nested calls, neither
    more nor fewer, and gives [k] times [..] and then what is left of [Q]. *)
Lemma regressive_climb (Q : Path) :
  wf_path Q = true ->
  forall n P, length (parts P) = n -> anchor P = anchor Q ->
  exists k r0,
    k <= n /\
    relative_to Q (Nat.iter k parent P) = Some r0 /\
    (forall j, j < k -> relative_to Q (Nat.iter j parent P) = None) /\
    (forall limit, k <= limit ->
       regressive_relative_to limit P Q
       = Ok {| anchor := 0; parts := repeat dotdot k ++ parts r0 |}) /\
    (forall limit, limit < k ->
       regressive_relative_to limit P Q = Raise RecursionError).
Proof.
  intros wfQ. induction n as [|n IH]; intros P Hn Ha;
    destruct (relative_to Q P) as [r|] eqn:R.
  1, 3: exists 0, r; repeat split; try lia; try assumption;
    intros limit _; destruct limit; simpl; rewrite R;
    destruct (relative_to_parts _ _ _ R) as (_ & _ & ->); reflexivity.
  - exfalso. unfold relative_to in R. rewrite Ha, Nat.eqb_refl in R.
    destruct (parts P); [discriminate R|discriminate Hn].
  - destruct (IH (parent P)) as (k & r0 & Hk & Hr & Hmin & Hok & Hfail).
    { rewrite length_parent. lia. }
    { exact Ha. }
    exists (S k), r0. rewrite Nat.iter_succ_r. repeat split.
    + lia.
    + exact Hr.
    + intros [|j] Hj; [exact R|]. rewrite Nat.iter_succ_r. apply Hmin. lia.
    + intros [|limit] Hl; [lia|]. simpl. rewrite R.
      rewrite Hok by lia. simpl. rewrite mkPath_dotdot; [reflexivity|reflexivity|].
      unfold wf_path. simpl. rewrite forallb_app.
      rewrite forallb_repeat by reflexivity.
      exact (relative_to_wf _ _ _ wfQ Hr).
    + intros [|limit] Hl; simpl; rewrite R; [reflexivity|].
      rewrite Hfail by lia. reflexivity.
Qed.

(** With a common root the climb stops at the root at the latest. *)
Lemma regressive_climb_under (R P Q : Path) (k : nat) :
  under R P = true -> under R Q = true ->
  (forall j, j < k -> relative_to Q (Nat.iter j parent P) = None) ->
  k + length (parts R) <= length (parts P).
Proof.
  unfold under. intros HP HQ Hmin.
  apply andb_true_iff in HP as [HaP HP]. apply andb_true_iff in HQ as [HaQ HQ].
  apply Nat.eqb_eq in HaP, HaQ.
  apply list_prefixb_split in HP, HQ.
  remember (skipn (length (parts R)) (parts P)) as p eqn:Ep0.
  remember (skipn (length (parts R)) (parts Q)) as q eqn:Eq0.
  assert (Hlen : length (parts P) = length (parts R) + length p)
    by (rewrite HP; apply length_app).
  destruct (le_lt_dec k (length p)) as [|Hlt]; [lia|].
  specialize (Hmin _ Hlt). exfalso.
  destruct (iter_parent_parts (length p) P) as [Ea Ep].
  replace (length (parts P) - length p) with (length (parts R)) in Ep by lia.
  rewrite HP, firstn_app, firstn_all, Nat.sub_diag in Ep.
  simpl in Ep. rewrite app_nil_r in Ep.
  unfold relative_to in Hmin. rewrite Ea, Ep, HQ, list_prefixb_app in Hmin.
  rewrite HaQ, HaP, Nat.eqb_refl in Hmin. discriminate.
Qed.

Lemma under_anchor (R P Q : Path) :
  under R P = true -> under R Q = true -> anchor P = anchor Q.
Proof.
  unfold under. intros HP HQ.
  apply andb_true_iff in HP as [HP _]. apply andb_true_iff in HQ as [HQ _].
  apply Nat.eqb_eq in HP, HQ. congruence.
Qed.

(** C9: for a source directory [P] and a target [Q] under a common root
    [R], the resolver returns: there is a number [k] of climbs, at most the
    depth of [P] (and at most the depth of [P] below the root), such that
    the recursion needs exactly [k] nested calls (any bound from [k] on
    gives the result, any smaller bound is exceeded), and the result is
    [k] times [..] followed by [Q] relative to the ancestor of [P] that is
    [k] levels up. *)
Theorem regressive_relative_to_terminates (R P Q : Path) :
  under R P = true -> under R Q = true -> wf_path Q = true ->
  exists k r0,
    k <= length (parts P) /\
    k + length (parts R) <= length (parts P) /\
    relative_to Q (Nat.iter k parent P) = Some r0 /\
    (forall limit, k <= limit ->
       regressive_relative_to limit P Q
       = Ok {| anchor := 0; parts := repeat dotdot k ++ parts r0 |}) /\
    (forall limit, limit < k ->
       regressive_relative_to limit P Q = Raise RecursionError).
Proof.
  intros HP HQ wfQ.
  destruct (regressive_climb Q wfQ (length (parts P)) P eq_refl
                             (under_anchor R P Q HP HQ))
    as (k & r0 & Hk & Hr & Hmin & Hok & Hfail).
  exists k, r0. repeat split; try assumption.
  exact (regressive_climb_under R P Q k HP HQ Hmin).
Qed.

Lemma regressive_relative_to_terminates_witness :
  exists k r0,
    k <= 3 /\
    k + 1 <= 3 /\
    relative_to (mkPath [lit "exported/c/d.md"])
                (Nat.iter k parent (mkPath [lit "exported/a/b"])) = Some r0 /\
    (forall limit, k <= limit ->
       regressive_relative_to limit (mkPath [lit "exported/a/b"])
                              (mkPath [lit "exported/c/d.md"])
       = Ok {| anchor := 0; parts := repeat dotdot k ++ parts r0 |}) /\
    (forall limit, limit < k ->
       regressive_relative_to limit (mkPath [lit "exported/a/b"])
                              (mkPath [lit "exported/c/d.md"])
       = Raise RecursionError).
Proof.
  apply (regressive_relative_to_terminates
           (mkPath [EXPORT_DIR]) (mkPath [lit "exported/a/b"])
           (mkPath [lit "exported/c/d.md"])); reflexivity.
Defined.








(** ** The matcher returns matches *)

Lemma star_sound {A} (a : atom) (k : str -> option A) : forall s x,
  star a s k = Some x ->
  exists l s', s = l ++ s' /\ forallb (atom_ok a) l = true /\ k s' = Some x.
Proof.
  induction s as [|c s IH]; intros x H; simpl in H.
  - exists [], []. auto.
  - destruct (atom_ok a c) eqn:E.
    + destruct (star a s k) as [y|] eqn:S1.
      * injection H as <-. destruct (IH _ eq_refl) as (l & s' & -> & Hl & Hk).
        exists (c :: l), s'. simpl. rewrite E. auto.
      * exists [], (c :: s). auto.
    + exists [], (c :: s). auto.
Qed.

Lemma mtch_sound {A} (r : regex) : forall s g (k : str -> caps -> option A) x,
  mtch r s g k = Some x ->
  exists s' g', sem r s g s' g' /\ k s' g' = Some x.
Proof.
  induction r as [a|a|a|a|n r IH|r1 IH1 r2 IH2]; intros s g k x H; simpl in H.
  - destruct s as [|c s]; [discriminate|].
    destruct (atom_ok a c) eqn:E; [|discriminate].
    exists s, g. split; [|assumption]. exists c. auto.
  - apply star_sound in H as (l & s' & -> & Hl & Hk).
    exists s', g. split; [|assumption]. exists l. auto.
  - destruct s as [|c s]; [discriminate|].
    destruct (atom_ok a c) eqn:E; [|discriminate].
    apply star_sound in H as (l & s' & -> & Hl & Hk).
    exists s', g. split; [|assumption]. exists c, l. auto.
  - destruct s as [|c s].
    + exists [], g. split; [|assumption]. split; auto.
    + destruct (atom_ok a c) eqn:E.
      * destruct (k s g) as [y|] eqn:K.
        -- injection H as <-. exists s, g. split; [|assumption].
           split; [right; exists c; auto|reflexivity].
        -- exists (c :: s), g. split; [|assumption]. split; auto.
      * exists (c :: s), g. split; [|assumption]. split; auto.
  - apply IH in H as (s' & g' & Hs & Hk).
    eexists _, _. split; [|exact Hk]. exists g'. auto.
  - apply IH1 in H as (s1 & g1 & H1 & H).
    apply IH2 in H as (s' & g' & H2 & Hk).
    exists s', g'. split; [|assumption]. exists s1, g1. auto.
Qed.

(** A pattern takes a prefix of the text. *)
Lemma sem_prefix (r : regex) : forall s g s' g',
  sem r s g s' g' -> exists l, s = l ++ s'.
Proof.
  induction r as [a|a|a|a|n r IH|r1 IH1 r2 IH2]; intros s g s' g' H; simpl in H.
  - destruct H as (c & -> & _). now exists [c].
  - destruct H as (l & -> & _). now exists l.
  - destruct H as (c & l & -> & _). now exists (c :: l).
  - destruct H as ([->|(c & -> & _)] & _); [now exists []|now exists [c]].
  - destruct H as (g1 & H & _). eauto.
  - destruct H as (s1 & g1 & H1 & H2).
    destruct (IH1 _ _ _ _ H1) as (l1 & ->).
    destruct (IH2 _ _ _ _ H2) as (l2 & ->).
    exists (l1 ++ l2). now rewrite app_assoc.
Qed.

Lemma firstn_consumed (l s' : str) :
  firstn (length (l ++ s') - length s') (l ++ s') = l.
Proof.
  rewrite length_app, Nat.add_sub, firstn_app, Nat.sub_diag, firstn_all.
  simpl. apply app_nil_r.
Qed.

Lemma sem_slug_group n s g s' g' :
  sem (Grp n (Cat (Star Dot) (One NonSpace))) s g s' g' ->
  exists u, slug_like u /\ s = u ++ s' /\ g' = (n, u) :: g.
Proof.
  simpl. intros (g1 & (s1 & g2 & (l & -> & Hl & ->) & (c & -> & Hc & ->)) & ->).
  exists (l ++ [c]). repeat split.
  - exists l, c. repeat split; [assumption|]. now apply negb_true_iff in Hc.
  - now rewrite <- app_assoc.
  - f_equal. f_equal.
    replace (l ++ c :: s') with ((l ++ [c]) ++ s') by now rewrite <- app_assoc.
    apply firstn_consumed.
Qed.

Lemma search_from_sound (r : regex) : forall s off m,
  search_from r off s = Some m ->
  exists pre s0 s',
    s = pre ++ s0 /\
    match_here r s0 = Some (s', m_groups m) /\
    m_start m = off + length pre /\
    m_end m = off + length pre + (length s0 - length s').
Proof.
  induction s as [|c s IH]; intros off m H; simpl in H.
  - destruct (match_here r []) as [[s' g]|] eqn:E; [|discriminate].
    injection H as <-. exists [], [], s'. simpl. rewrite E.
    repeat split; lia.
  - destruct (match_here r (c :: s)) as [[s' g]|] eqn:E.
    + injection H as <-. exists [], (c :: s), s'. simpl (m_groups _).
      rewrite E. simpl. repeat split; lia.
    + apply IH in H as (pre & s0 & s' & -> & Hm & Hs & He).
      exists (c :: pre), s0, s'. simpl. repeat split; try assumption; lia.
Qed.

Lemma match_here_sem r s s' g :
  match_here r s = Some (s', g) -> sem r s [] s' g.
Proof.
  unfold match_here. intros H.
  apply mtch_sound in H as (s1 & g1 & Hs & [= -> ->]). exact Hs.
Qed.

Lemma sem_lit (c : string) s g s' g' :
  sem (L c) s g s' g' ->
  exists x, s = x :: s' /\ atom_ok (match L c with One a => a | _ => Dot end) x = true
            /\ g' = g.
Proof. destruct c; simpl; intros (x & -> & Hx & ->); exists x; auto. Qed.

Lemma sem_one_lit c s g s' g' :
  sem (One (Lit c)) s g s' g' -> s = c :: s' /\ g' = g.
Proof.
  simpl. intros (x & -> & Hx & ->). apply Ascii.eqb_eq in Hx. now subst.
Qed.

Lemma sem_spaces s g s' g' :
  sem (Star Space) s g s' g' ->
  exists w, s = w ++ s' /\ forallb is_space w = true /\ g' = g.
Proof. simpl. intros (w & -> & Hw & ->). exists w. auto. Qed.

(** A match of [INTERNAL_LINK_REGEX] is [[[], white space, the slug, white
    space and []]], and group 1 is the slug. *)
Lemma internal_match_shape s s' g :
  match_here INTERNAL_LINK_REGEX s = Some (s', g) ->
  exists w1 u w2,
    s = lit "[[" ++ w1 ++ u ++ w2 ++ lit "]]" ++ s' /\
    forallb is_space w1 = true /\ slug_like u /\
    forallb is_space w2 = true /\ g = [(1, u)].
Proof.
  intros H. apply match_here_sem in H.
  destruct H as (s1 & g1 & H1 & s2 & g2 & H2 & s3 & g3 & H3 & s4 & g4 & H4
                 & s5 & g5 & H5 & s6 & g6 & H6 & H7).
  apply sem_one_lit in H1 as [-> ->]. apply sem_one_lit in H2 as [-> ->].
  apply sem_spaces in H3 as (w1 & -> & Hw1 & ->).
  apply sem_slug_group in H4 as (u & Hu & -> & ->).
  apply sem_spaces in H5 as (w2 & -> & Hw2 & ->).
  apply sem_one_lit in H6 as [-> ->]. apply sem_one_lit in H7 as [-> ->].
  exists w1, u, w2. repeat split; assumption.
Qed.

(** A match of [LINK_REGEX], likewise: group 1 is the url and group 2 the
    text. *)
Lemma link_match_shape s s' g :
  match_here LINK_REGEX s = Some (s', g) ->
  exists w1 u w2 w3 t w4,
    s = lit "[[" ++ w1 ++ u ++ w2 ++ lit "|" ++ w3 ++ t ++ w4 ++ lit "]]" ++ s' /\
    forallb is_space w1 = true /\ slug_like u /\
    forallb is_space w2 = true /\ forallb is_space w3 = true /\
    slug_like t /\ forallb is_space w4 = true /\
    g = [(2, t); (1, u)].
Proof.
  intros H. apply match_here_sem in H.
  destruct H as (s1 & g1 & H1 & s2 & g2 & H2 & s3 & g3 & H3 & s4 & g4 & H4
                 & s5 & g5 & H5 & s6 & g6 & H6 & s7 & g7 & H7 & s8 & g8 & H8
                 & s9 & g9 & H9 & s10 & g10 & H10 & H11).
  apply sem_one_lit in H1 as [-> ->]. apply sem_one_lit in H2 as [-> ->].
  apply sem_spaces in H3 as (w1 & -> & Hw1 & ->).
  apply sem_slug_group in H4 as (u & Hu & -> & ->).
  apply sem_spaces in H5 as (w2 & -> & Hw2 & ->).
  apply sem_one_lit in H6 as [-> ->].
  apply sem_spaces in H7 as (w3 & -> & Hw3 & ->).
  apply sem_slug_group in H8 as (t & Ht & -> & ->).
  apply sem_spaces in H9 as (w4 & -> & Hw4 & ->).
  apply sem_one_lit in H10 as [-> ->]. apply sem_one_lit in H11 as [-> ->].
  exists w1, u, w2, w3, t, w4. repeat split; assumption.
Qed.

Lemma slug_like_nonempty u : slug_like u -> u <> [].
Proof. intros (l & c & -> & _) E. now destruct l. Qed.

Lemma format_slug_nonempty u :
  u <> [] ->
  format_slug u
  = Ok (lower (if Ascii.eqb (last u chr_slash) chr_slash
               then u else u ++ [chr_slash])).
Proof.
  unfold format_slug, opt_last. destruct u as [|c u]; [congruence|]. intros _.
  destruct (Ascii.eqb (last (c :: u) chr_slash) chr_slash); reflexivity.
Qed.

Lemma span_bounds (pre l s' : str) (b e : nat) :
  b = 0 + length pre ->
  e = 0 + length pre + (length (l ++ s') - length s') ->
  l <> [] ->
  b < e <= length (pre ++ l ++ s').
Proof.
  intros -> -> Hl. rewrite !length_app.
  destruct l; [congruence|]. cbn [length]. lia.
Qed.

(** The slug group of a match found by [search] in any text. *)
Lemma search_internal_group text m :
  search INTERNAL_LINK_REGEX text = Some m ->
  slug_like (group m 1) /\ m_start m < m_end m <= length text.
Proof.
  unfold search. intros H.
  apply search_from_sound in H as (pre & s0 & s' & -> & Hm & Hs & He).
  apply internal_match_shape in Hm as (w1 & u & w2 & -> & _ & Hu & _ & Hg).
  unfold group. rewrite Hg. simpl cap_get. split; [assumption|].
  assert (E : lit "[[" ++ w1 ++ u ++ w2 ++ lit "]]" ++ s'
              = (lit "[[" ++ w1 ++ u ++ w2 ++ lit "]]") ++ s')
    by (now rewrite <- !app_assoc).
  rewrite E in *. apply span_bounds; [exact Hs|exact He|discriminate].
Qed.

Lemma search_link_groups text m :
  search LINK_REGEX text = Some m ->
  slug_like (group m 1) /\ slug_like (group m 2) /\
  m_start m < m_end m <= length text.
Proof.
  unfold search. intros H.
  apply search_from_sound in H as (pre & s0 & s' & -> & Hm & Hs & He).
  apply link_match_shape in Hm
    as (w1 & u & w2 & w3 & t & w4 & -> & _ & Hu & _ & _ & Ht & _ & Hg).
  unfold group. rewrite Hg. simpl cap_get. split; [|split]; try assumption.
  assert (E : lit "[[" ++ w1 ++ u ++ w2 ++ lit "|" ++ w3 ++ t ++ w4
                ++ lit "]]" ++ s'
              = (lit "[[" ++ w1 ++ u ++ w2 ++ lit "|" ++ w3 ++ t ++ w4
                   ++ lit "]]") ++ s')
    by (now rewrite <- !app_assoc).
  rewrite E in *. apply span_bounds; [exact Hs|exact He|discriminate].
Qed.

(** ** The rewriting passes and [format_slug] *)

Lemma regressive_outcome limit : forall P Q,
  (exists r, regressive_relative_to limit P Q = Ok r) \/
  regressive_relative_to limit P Q = Raise RecursionError.
Proof.
  induction limit as [|limit IH]; intros P Q; simpl;
    destruct (relative_to Q P); eauto.
  destruct (IH (parent P) Q) as [[r ->]| ->]; simpl; eauto.
Qed.

Lemma render_link_safe limit P Q text :
  no_index_error (render_link limit P Q text).
Proof.
  unfold render_link, no_index_error.
  destruct (regressive_outcome limit P Q) as [[r ->]| ->]; simpl; discriminate.
Qed.

Lemma replace_a_raw_link_safe limit h idx self text m :
  search LINK_REGEX text = Some m ->
  no_index_error (replace_a_raw_link limit h idx self m).
Proof.
  intros H. apply search_link_groups in H as (Hu & _ & _).
  unfold replace_a_raw_link.
  rewrite (format_slug_nonempty _ (slug_like_nonempty _ Hu)). simpl.
  destruct (dict_get idx _) as [i|]; [|discriminate].
  unfold deref. destruct (nth_error h i); simpl; [|discriminate].
  apply render_link_safe.
Qed.

Lemma replace_a_link_by_slug_safe limit h idx self text m :
  search INTERNAL_LINK_REGEX text = Some m ->
  no_index_error (replace_a_link_by_slug limit h idx self m).
Proof.
  intros H. apply search_internal_group in H as (Hu & _).
  unfold replace_a_link_by_slug.
  rewrite (format_slug_nonempty _ (slug_like_nonempty _ Hu)). simpl.
  destruct (dict_get idx _) as [i|]; [|discriminate].
  unfold deref. destruct (nth_error h i); simpl; [|discriminate].
  apply render_link_safe.
Qed.

Lemma bind_safe {A B} (x : res A) (f : A -> res B) :
  no_index_error x -> (forall a, x = Ok a -> no_index_error (f a)) ->
  no_index_error (x <- x ;; f x).
Proof.
  unfold no_index_error. destruct x as [a|e|]; simpl; intros Hx Hf.
  - now apply Hf.
  - intros [= ->]. now apply Hx.
  - discriminate.
Qed.

Lemma re_sub_from_safe r f :
  (forall s m, search r s = Some m -> no_index_error (f m)) ->
  forall n s, no_index_error (re_sub_from n r f s).
Proof.
  intros Hf. induction n as [|n IH]; intros s; simpl;
    destruct (search r s) as [m|] eqn:E; try discriminate.
  apply bind_safe; [now apply (Hf s)|]. intros rep _.
  apply bind_safe; [apply IH|]. intros rest _. discriminate.
Qed.

Lemma custom_re_sub_safe r f :
  (forall s m, search r s = Some m -> no_index_error (f m)) ->
  forall fuel s, no_index_error (custom_re_sub fuel r f s).
Proof.
  intros Hf. induction fuel as [|fuel IH]; intros s; simpl; unfold sub_once;
    destruct (search r s) as [m|] eqn:E; try discriminate.
  apply bind_safe.
  - apply bind_safe; [now apply (Hf s)|]. intros rep _. discriminate.
  - intros text' _. apply IH.
Qed.

(** [re.sub] with a pattern that takes at least one character at each
    match comes to an end within the bound [length s]. *)
Lemma re_sub_from_ends r f :
  (forall s m, search r s = Some m -> m_start m < m_end m <= length s) ->
  (forall m, f m <> OutOfFuel) ->
  forall n s, length s <= n -> re_sub_from n r f s <> OutOfFuel.
Proof.
  intros Hr Hf. induction n as [|n IH]; intros s Hn; simpl;
    destruct (search r s) as [m|] eqn:E; try discriminate.
  - apply Hr in E. lia.
  - apply Hr in E. specialize (Hf m).
    destruct (f m) as [rep|e|]; simpl; [|discriminate|congruence].
    assert (Hlen : length (skipn (m_end m) s) <= n)
      by (rewrite length_skipn; lia).
    specialize (IH _ Hlen).
    destruct (re_sub_from n r f (skipn (m_end m) s)); simpl;
      [discriminate|discriminate|congruence].
Qed.

Lemma replace_a_raw_link_returns limit h idx self m :
  replace_a_raw_link limit h idx self m <> OutOfFuel.
Proof.
  unfold replace_a_raw_link, format_slug.
  destruct (opt_last (group m 1)); simpl; [|discriminate].
  destruct (dict_get idx _) as [i|]; [|discriminate].
  unfold deref. destruct (nth_error h i); simpl; [|discriminate].
  unfold render_link.
  destruct (regressive_outcome limit (parent (path self)) (path d))
    as [[r ->]| ->]; simpl; discriminate.
Qed.

(** C10: during the rewriting of any content, [format_slug] is only given
    strings that are not empty.  Whatever the text, the group that a match
    of either link pattern hands to [format_slug] ends with a character
    that is not white space, so [format_slug] returns; and for every
    content, store, index and bounds, [clean_links] and [clean_content]
    never end in the [IndexError] of [url[-1]], and the single pass of
    [re.sub] over the content comes to its end.  No more than that holds:
    the passes themselves need not return, as the last part of the file
    shows. *)
Theorem link_rewriting_never_faults_in_format_slug
        (limit fuel : nat) (h : store) (idx : dict nat) (self : Document) :
  (forall text m, search LINK_REGEX text = Some m ->
     group m 1 <> [] /\ exists sl, format_slug (group m 1) = Ok sl) /\
  (forall text m, search INTERNAL_LINK_REGEX text = Some m ->
     group m 1 <> [] /\ exists sl, format_slug (group m 1) = Ok sl) /\
  format_slug [] = Raise IndexError /\
  no_index_error (clean_links limit fuel h idx self) /\
  no_index_error (clean_content limit fuel h idx self) /\
  re_sub LINK_REGEX (replace_a_raw_link limit h idx self) (content self)
    <> OutOfFuel.
Proof.
  assert (HL : forall d, no_index_error (clean_links limit fuel h idx d)).
  { intros d. unfold clean_links. apply bind_safe.
    - apply re_sub_from_safe. intros s m. apply replace_a_raw_link_safe.
    - intros c1 _. apply bind_safe; [|discriminate].
      apply custom_re_sub_safe. intros s m. apply replace_a_link_by_slug_safe. }
  repeat split.
  - apply search_link_groups in H as (Hu & _). now apply slug_like_nonempty.
  - apply search_link_groups in H as (Hu & _).
    rewrite (format_slug_nonempty _ (slug_like_nonempty _ Hu)). eauto.
  - apply search_internal_group in H as (Hu & _). now apply slug_like_nonempty.
  - apply search_internal_group in H as (Hu & _).
    rewrite (format_slug_nonempty _ (slug_like_nonempty _ Hu)). eauto.
  - apply HL.
  - unfold clean_content. apply bind_safe; [apply HL|].
    intros d _. unfold clean_headers. apply bind_safe; [|discriminate].
    apply custom_re_sub_safe. intros s m _. discriminate.
  - apply re_sub_from_ends.
    + intros s m Hm. now apply search_link_groups in Hm as (_ & _ & Hb).
    + apply replace_a_raw_link_returns.
    + reflexivity.
Qed.

(** ** The matcher finds a bare reference *)

Lemma star_app {A} a (k : str -> option A) l rest x :
  forallb (atom_ok a) l = true ->
  star a rest k = Some x -> star a (l ++ rest) k = Some x.
Proof.
  induction l as [|c l IH]; simpl; intros Hl H; [assumption|].
  apply andb_true_iff in Hl as [Hc Hl]. rewrite Hc, (IH Hl H). reflexivity.
Qed.

Lemma star_none {A} a (k : str -> option A) : forall t,
  (forall t1 t2, t = t1 ++ t2 -> k t2 = None) -> star a t k = None.
Proof.
  induction t as [|c t IH]; intros H; simpl.
  - now apply (H [] []).
  - rewrite IH by (intros t1 t2 ->; now apply (H (c :: t1) t2)).
    rewrite (H [] (c :: t) eq_refl). now destruct (atom_ok a c).
Qed.

Lemma star_stop {A} a (k : str -> option A) c t :
  atom_ok a c = false -> star a (c :: t) k = k (c :: t).
Proof. simpl. now intros ->. Qed.

Lemma closing_fails_short {A} g (k : str -> caps -> option A) :
  mtch closing [] g k = None /\ mtch closing (lit "]") g k = None.
Proof. split; reflexivity. Qed.

Lemma closing_matches {A} g (k : str -> caps -> option A) w x :
  forallb is_space w = true -> k [] g = Some x ->
  mtch closing (w ++ lit "]]") g k = Some x.
Proof.
  intros Hw Hk. unfold closing. cbn [cat mtch].
  apply star_app; [exact Hw|]. exact Hk.
Qed.

Lemma nonspace_dot c : is_space c = false -> atom_ok Dot c = true.
Proof.
  intros H. simpl. destruct (Ascii.eqb c NL) eqn:E; [|reflexivity].
  apply Ascii.eqb_eq in E. subst c. discriminate H.
Qed.

Lemma dot_star_last {A} (k1 : str -> caps -> option A) l c T g x :
  forallb (atom_ok Dot) l = true -> is_space c = false ->
  (forall t1 t2, T = t1 ++ t2 -> mtch (One NonSpace) t2 g k1 = None) ->
  k1 T g = Some x ->
  mtch (Cat (Star Dot) (One NonSpace)) (l ++ c :: T) g k1 = Some x.
Proof.
  intros Hl Hc Hnone Hk. cbn [mtch]. apply star_app; [exact Hl|].
  cbn [star]. rewrite (nonspace_dot _ Hc).
  rewrite star_none by exact Hnone.
  cbn [mtch atom_ok]. rewrite Hc. exact Hk.
Qed.

Lemma closing_suffixes w : forallb is_space w = true ->
  forall t1 t2, w ++ lit "]]" = t1 ++ t2 ->
  (exists x t', t2 = x :: t' /\ is_space x = true) \/
  t2 = lit "]]" \/ t2 = lit "]" \/ t2 = [].
Proof.
  induction w as [|x w IH]; intros Hw t1 t2 E.
  - destruct t1 as [|a [|b [|c t1]]]; simpl in E.
    + right. left. now subst.
    + injection E as _ <-. right. right. now left.
    + injection E as _ _ <-. now repeat right.
    + discriminate E.
  - simpl in Hw. apply andb_true_iff in Hw as [Hx Hw].
    destruct t1 as [|a t1]; simpl in E.
    + left. subst t2. eauto.
    + injection E as _ E. now apply (IH Hw t1).
Qed.

Lemma search_at_head r s s' g :
  match_here r s = Some (s', g) ->
  search r s = Some {| m_start := 0; m_end := 0 + (length s - length s');
                       m_groups := g |}.
Proof. unfold search. intros H. destruct s; simpl; now rewrite H. Qed.


(** ** Bare slug references *)




(** A resolved reference on a concrete store: the text of the link is the
    title of the target and its target the relative path. *)
Example bare_reference_resolved :
  res_map content
          (clean_links 10 10 two_docs two_index
             (set_path (mk_doc "a/b/" "up [[a]]") (mkPath [lit "exported/a/b.md"])))
  = Ok (lit "up [T](README.md)") /\
  res_map content
          (clean_links 10 10 two_docs two_index
             (set_path (mk_doc "a/" "see [[ A/B ]]")
                       (mkPath [lit "exported/a/README.md"])))
  = Ok (lit "see [T](b.md)").
Proof. split; vm_compute; reflexivity. Qed.

(** The whole run on three rows, two of them versions of one document. *)
Example run_three_rows :
  paths_of (main 10 10 empty_fs
              [ mk_row "/" "Home" "[[a/b]]" 1 "PHID-1";
                mk_row "a/" "A" "x" 1 "PHID-2";
                mk_row "a/b/" "B" "old" 1 "PHID-3";
                mk_row "a/b/" "B" "new" 2 "PHID-3" ])
  = Ok [lit "exported/README.md"; lit "exported/a/README.md";
        lit "exported/a/b.md"].
Proof. vm_compute. reflexivity. Qed.

(** ** Slugs without a segment, in general *)

Lemma lstrip_slash_repeat n : lstrip_slash (repeat chr_slash n) = (n, []).
Proof. induction n as [|n IH]; simpl; [reflexivity|]. now rewrite IH. Qed.

Lemma split_repeat n :
  filter (fun s => 0 <? length s) (split chr_slash (repeat chr_slash n)) = [].
Proof. induction n as [|n IH]; simpl; [reflexivity|]. exact IH. Qed.

Lemma str_eqb_repeat_slash n :
  n <> 1 -> str_eqb (repeat chr_slash n) (lit "/") = false.
Proof. destruct n as [|[|n]]; [reflexivity|congruence|reflexivity]. Qed.

(** Every slug made of slashes only, other than the root slug, goes
    through [Document_init] and [correct_path] without an exception and
    without a directory being made, whatever the filesystem holds, and
    [get_filename] raises for it. *)
Lemma slashes_only_slug_is_given_a_path (fs : FS) (n : nat) (r : Row) :
  r_slug r = repeat chr_slash n -> n <> 1 ->
  exists d d',
    Document_init fs r = Ok (d, fs) /\ correct_path fs d = Ok d' /\
    get_filename fs d EXPORT_DIR = Raise BadSlug.
Proof.
  intros Hs Hn. unfold Document_init. rewrite Hs, (str_eqb_repeat_slash n Hn).
  cbv beta zeta iota.
  assert (Hg : forall p,
             get_filename fs
               {| id_ := r_id r; version := r_version r;
                  slug := repeat chr_slash n; title := r_title r;
                  content := r_content r; documentPHID := r_documentPHID r;
                  path := p |} EXPORT_DIR = Raise BadSlug).
  { intros p. unfold get_filename. cbn [slug].
    now rewrite (str_eqb_repeat_slash n Hn), split_repeat. }
  set (p := mkPath _) in *.
  assert (Hp : parts p = [] \/ p = mkPath [EXPORT_DIR]).
  { subst p. destruct n as [|[|n]]; [right; reflexivity|congruence|left].
    unfold mkPath. cbn [parse_parts]. unfold splitroot.
    rewrite lstrip_slash_repeat. now destruct n. }
  assert (He : exists_ fs (parent p) = true).
  { unfold exists_, is_dir, parent. cbn [parts].
    destruct Hp as [Hp|Hp]; rewrite Hp; reflexivity. }
  destruct (correct_path fs
              {| id_ := r_id r; version := r_version r;
                 slug := repeat chr_slash n; title := r_title r;
                 content := r_content r; documentPHID := r_documentPHID r;
                 path := p |}) as [d'|e|] eqn:C.
  - eexists _, d'. rewrite He. cbn [negb bind].
    split; [reflexivity|]. split; [exact C|apply Hg].
  - exfalso. unfold correct_path in C. cbn [path] in C.
    destruct Hp as [Hp|Hp].
    + unfold exists_, is_dir in C. rewrite Hp in C. discriminate C.
    + rewrite Hp in C.
      destruct (exists_ fs (mkPath [EXPORT_DIR]) && is_dir fs (mkPath [EXPORT_DIR]));
        discriminate C.
  - exfalso. unfold correct_path in C. cbn [path] in C.
    destruct Hp as [Hp|Hp].
    + unfold exists_, is_dir in C. rewrite Hp in C. discriminate C.
    + rewrite Hp in C.
      destruct (exists_ fs (mkPath [EXPORT_DIR]) && is_dir fs (mkPath [EXPORT_DIR]));
        discriminate C.
Qed.

(** When the export directory exists at correction time, as it does once
    any document with a relative slug of its own has been built, the root
    document is given [README.md] in it. *)
Lemma root_document_readme_when_export_dir_exists (fs : FS) (r : Row) :
  r_slug r = lit "/" -> is_dir fs (mkPath [EXPORT_DIR]) = true ->
  exists d d',
    Document_init fs r = Ok (d, fs) /\ correct_path fs d = Ok d' /\
    path_str (path d') = lit "exported/README.md".
Proof.
  intros Hs Hd. unfold Document_init. rewrite Hs.
  change (str_eqb (lit "/") (lit "/")) with true. cbv beta zeta iota.
  eexists _, _.
  change (exists_ fs (parent (mkPath [EXPORT_DIR]))) with true.
  cbn [negb bind]. split; [reflexivity|].
  unfold correct_path, exists_. cbn [path]. rewrite Hd. cbn [orb andb].
  split; reflexivity.
Qed.

(** * Further properties of the program *)

(** ** [ellipsis] *)

Lemma replace_nl_length s : length (replace_nl s) = length s.
Proof. apply length_map. Qed.

Lemma replace_nl_no_nl s : has_chr NL (replace_nl s) = false.
Proof.
  induction s as [|c s IH]; simpl; [reflexivity|]. rewrite IH.
  destruct (Ascii.eqb c NL) eqn:E; [reflexivity|]. now rewrite E.
Qed.

Lemma has_chr_app c a b : has_chr c (a ++ b) = has_chr c a || has_chr c b.
Proof. apply existsb_app. Qed.

Lemma has_chr_firstn c n s : has_chr c s = false -> has_chr c (firstn n s) = false.
Proof.
  revert s; induction n as [|n IH]; intros [|x s]; simpl; auto.
  intros H. apply orb_false_iff in H as [Hx Hs]. rewrite Hx. simpl. auto.
Qed.

(** X1: [ellipsis s n] never holds a line feed, leaves a text of at most
    [n] characters as it is but for its line feeds, and for [n] at least 2
    is at most [n] characters long. *)
Theorem ellipsis_fits (s : str) (n : Z) :
  (2 <= n)%Z ->
  has_chr NL (ellipsis s n) = false /\
  (Z.of_nat (length (ellipsis s n)) <= n)%Z /\
  ((Z.of_nat (length s) <= n)%Z -> ellipsis s n = replace_nl s).
Proof.
  intros Hn. unfold ellipsis. rewrite replace_nl_length.
  destruct (n <? Z.of_nat (length s))%Z eqn:E.
  - apply Z.ltb_lt in E. unfold slice_to.
    assert (H0 : (0 <=? n - 2)%Z = true) by (apply Z.leb_le; lia).
    rewrite H0. repeat split.
    + rewrite has_chr_app, has_chr_firstn by apply replace_nl_no_nl.
      reflexivity.
    + rewrite length_app, length_firstn, replace_nl_length. simpl. lia.
    + lia.
  - apply Z.ltb_ge in E. repeat split.
    + apply replace_nl_no_nl.
    + rewrite replace_nl_length. lia.
Qed.

Lemma ellipsis_fits_witness :
  has_chr NL (ellipsis (lit "a rather long title of a page") 20) = false /\
  (Z.of_nat (length (ellipsis (lit "a rather long title of a page") 20)) <= 20)%Z /\
  ((Z.of_nat (length (lit "a rather long title of a page")) <= 20)%Z ->
   ellipsis (lit "a rather long title of a page") 20
   = replace_nl (lit "a rather long title of a page")).
Proof. apply (ellipsis_fits (lit "a rather long title of a page") 20). lia. Defined.

(** ** [format_slug] *)

Lemma lower_chr_idem c : lower_chr (lower_chr c) = lower_chr c.
Proof.
  destruct c as [[] [] [] [] [] [] [] []]; vm_compute; reflexivity.
Qed.

Lemma lower_idem s : lower (lower s) = lower s.
Proof.
  unfold lower. rewrite map_map. apply map_ext. intros c. apply lower_chr_idem.
Qed.

Lemma last_map {A B} (f : A -> B) l d :
  l <> [] -> last (map f l) (f d) = f (last l d).
Proof.
  induction l as [|x l IH]; [congruence|]. intros _.
  destruct l as [|y l]; [reflexivity|].
  change (last (map f (x :: y :: l)) (f d)) with (last (map f (y :: l)) (f d)).
  change (last (x :: y :: l) d) with (last (y :: l) d).
  apply IH. discriminate.
Qed.

Lemma last_nonempty_default {A} (l : list A) d d' : l <> [] -> last l d = last l d'.
Proof.
  induction l as [|x l IH]; [congruence|]. intros _.
  destruct l as [|y l]; [reflexivity|]. apply IH. discriminate.
Qed.

(** X2: what [format_slug] returns is not empty, ends with [/], and is a
    fixed point of [format_slug]: normalizing twice is normalizing once. *)
Theorem format_slug_idempotent (url sl : str) :
  format_slug url = Ok sl ->
  sl <> [] /\ last sl chr_slash = chr_slash /\ sl = lower sl /\
  format_slug sl = Ok sl.
Proof.
  unfold format_slug at 1, opt_last.
  destruct url as [|c u]; [discriminate|].
  set (v := if negb (Ascii.eqb (last (c :: u) chr_slash) chr_slash)
            then (c :: u) ++ [chr_slash] else c :: u).
  intros [= <-].
  assert (Hv : v <> []) by (subst v; destruct (negb _); discriminate).
  assert (Hl : last v chr_slash = chr_slash).
  { subst v. destruct (Ascii.eqb (last (c :: u) chr_slash) chr_slash) eqn:E;
      cbn [negb].
    - now apply Ascii.eqb_eq in E.
    - apply last_last. }
  assert (Hll : last (lower v) chr_slash = chr_slash).
  { unfold lower. change chr_slash with (lower_chr chr_slash) at 1.
    rewrite last_map by exact Hv. now rewrite Hl. }
  assert (Hne : lower v <> []) by (destruct v; [congruence|discriminate]).
  repeat split; try assumption.
  - now rewrite lower_idem.
  - unfold format_slug, opt_last. destruct (lower v) as [|x t] eqn:Ev;
      [congruence|].
    rewrite Hll, Ascii.eqb_refl. cbn [negb]. rewrite <- Ev. now rewrite lower_idem.
Qed.

Lemma format_slug_idempotent_witness :
  lit "projects/plan/" <> [] /\
  last (lit "projects/plan/") chr_slash = chr_slash /\
  lit "projects/plan/" = lower (lit "projects/plan/") /\
  format_slug (lit "projects/plan/") = Ok (lit "projects/plan/").
Proof.
  apply (format_slug_idempotent (lit "Projects/Plan") (lit "projects/plan/")).
  reflexivity.
Defined.

(** ** Version selection on records that are already selected *)

Lemma fold_keep_max_fresh docs : forall mv,
  NoDup (map documentPHID docs) ->
  (forall p, In p (map documentPHID docs) -> ~ In p (dict_keys mv)) ->
  fold_left keep_max docs mv
  = mv ++ map (fun d => (documentPHID d, d)) docs.
Proof.
  induction docs as [|d docs IH]; intros mv ND Hfresh; simpl.
  - now rewrite app_nil_r.
  - inversion ND as [|? ? Hd ND']; subst.
    assert (G : dict_get mv (documentPHID d) = None)
      by (apply dict_get_None; apply Hfresh; now left).
    assert (E : keep_max mv d = mv ++ [(documentPHID d, d)]).
    { unfold keep_max. rewrite G. clear - G.
      induction mv as [|[k v] mv IHmv]; simpl in *; [reflexivity|].
      destruct (str_eqb k (documentPHID d)); [discriminate|].
      now rewrite IHmv. }
    rewrite E, IH; [now rewrite <- app_assoc|assumption|].
    intros p Hp. unfold dict_keys. rewrite map_app, in_app_iff. simpl.
    intros [H|[<-|[]]]; [|contradiction].
    apply (Hfresh p); [now right|exact H].
Qed.

Lemma select_max_fixed docs :
  NoDup (map documentPHID docs) -> select_max_version_of_documents docs = docs.
Proof.
  intros ND. unfold select_max_version_of_documents.
  rewrite fold_keep_max_fresh; [|assumption|intros p _ []].
  unfold dict_values. simpl. rewrite map_map. simpl. apply map_id.
Qed.

(** X3: version selection leaves a sequence with one record for each
    documentPHID as it is, in the same order, and selecting a second time
    changes nothing. *)
Theorem select_max_version_idempotent (docs : list Document) :
  (NoDup (map documentPHID docs) ->
   select_max_version_of_documents docs = docs) /\
  select_max_version_of_documents (select_max_version_of_documents docs)
  = select_max_version_of_documents docs.
Proof.
  split; [apply select_max_fixed|].
  apply select_max_fixed.
  pose proof (fold_keep_max_inv docs [] [] max_inv_nil) as [ND _ HB].
  unfold select_max_version_of_documents.
  rewrite values_phids; [exact ND|].
  intros k d Hd. now destruct (HB _ _ Hd).
Qed.

(** ** Lookups in the slug index *)

Lemma last_occurrence (docs : store) (k : str) :
  (forall e, In e docs -> slug e <> k) \/
  exists n d, nth_error docs n = Some d /\ slug d = k /\
              forall j e, n < j -> nth_error docs j = Some e -> slug e <> k.
Proof.
  induction docs as [|x docs IH].
  - left. intros e [].
  - destruct IH as [Hnone|(n & d & Hn & Hd & Hlast)].
    + destruct (list_eq_dec ascii_dec (slug x) k) as [E|E].
      * right. exists 0, x. repeat split; [assumption|].
        intros [|j] e Hj He; [lia|]. apply Hnone.
        exact (nth_error_In docs j He).
      * left. intros e [<-|He]; auto.
    + right. exists (S n), d. repeat split; try assumption.
      intros [|j] e Hj He; [lia|]. apply (Hlast j); [lia|exact He].
Qed.

(** X4: a lookup in the slug index answers with the position of the last
    document of the store that has exactly the slug asked for, so it never
    holds a reference outside the store; and it has no entry for a slug
    that no document of the store has. *)
Theorem slug_index_lookup (docs : store) (k : str) :
  match dict_get (get_documents_by_slug docs) k with
  | Some i =>
      exists d, deref docs i = Ok d /\ slug d = k /\
                forall j e, i < j -> nth_error docs j = Some e -> slug e <> k
  | None => forall e, In e docs -> slug e <> k
  end.
Proof.
  unfold get_documents_by_slug.
  destruct (last_occurrence docs k) as [Hnone|(n & d & Hn & Hd & Hlast)].
  - rewrite index_from_absent by assumption. exact Hnone.
  - subst k. rewrite (index_from_last docs 0 [] n d Hn Hlast).
    exists d. unfold deref. cbn [Nat.add]. rewrite Hn. auto.
Qed.

(** ** The loop of [custom_re_sub] *)

Lemma custom_re_sub_ok_no_match r replacer : forall fuel text t,
  custom_re_sub fuel r replacer text = Ok t -> search r t = None.
Proof.
  induction fuel as [|fuel IH]; intros text t; simpl;
    unfold sub_once; destruct (search r text) as [m|] eqn:E;
    try discriminate; try (intros [= <-]; exact E).
  destruct (replacer m) as [rep|e|]; simpl; try discriminate.
  apply IH.
Qed.

(** X5: [custom_re_sub] returns a text in which the pattern is no longer
    found, and returns its argument, whatever the bound, when the pattern
    is not found in it. *)
Theorem custom_re_sub_leaves_no_match
        (r : regex) (replacer : Match -> res str) (fuel : nat) (text : str) :
  (forall t, custom_re_sub fuel r replacer text = Ok t -> search r t = None) /\
  (search r text = None -> custom_re_sub fuel r replacer text = Ok text).
Proof.
  split.
  - apply custom_re_sub_ok_no_match.
  - intros E. destruct fuel; simpl; unfold sub_once; now rewrite E.
Qed.

(** ** Heading normalization comes to an end *)

Lemma count_eq_app a b : count_eq (a ++ b) = count_eq a + count_eq b.
Proof. apply count_occ_app. Qed.

Lemma count_eq_cons_le c s : count_eq s <= count_eq (c :: s).
Proof. unfold count_eq. simpl. destruct (ascii_dec c "="); lia. Qed.

Lemma count_eq_skipn n s : count_eq (skipn n s) <= count_eq s.
Proof.
  revert s; induction n as [|n IH]; intros [|c s]; simpl; try lia.
  specialize (IH s). pose proof (count_eq_cons_le c s). lia.
Qed.

Lemma sem_plus_eq s g s' g' :
  sem (Plus (Lit "="%char)) s g s' g' ->
  exists l, s = ("="%char :: l) ++ s' /\ g' = g.
Proof.
  simpl. intros (c & l & -> & Hc & _ & ->). apply Ascii.eqb_eq in Hc.
  subst c. now exists l.
Qed.

Lemma sem_opt_count a s g s' g' :
  sem (Opt (Lit a)) s g s' g' ->
  g' = g /\ exists l, s = l ++ s' /\ count_eq s' <= count_eq s.
Proof.
  simpl. intros ([->|(c & -> & _)] & ->); split; try reflexivity.
  - exists []. split; [reflexivity|lia].
  - exists [c]. split; [reflexivity|apply count_eq_cons_le].
Qed.

(** A match of [HEADER_REGEX]: group 1 is a run of [=] that is not empty,
    group 2 holds no line feed, and the match holds at least two [=]
    besides those of group 2. *)
Lemma header_match_shape s s' g :
  match_here HEADER_REGEX s = Some (s', g) ->
  exists n t l,
    g = [(2, t); (1, repeat "="%char (S n))] /\
    forallb (atom_ok Dot) t = true /\
    s = l ++ s' /\
    count_eq t + 2 + count_eq s' <= count_eq s.
Proof.
  intros H. apply match_here_sem in H.
  destruct H as (s1 & g1 & (g0 & H1 & ->) & s2 & g2 & H2 & s3 & g3
                 & (g2' & H3 & ->) & s4 & g4 & H4 & H5).
  pose proof H1 as H1'. simpl in H1'.
  destruct H1' as (c & l1 & Es & Hc & Hl1 & ->).
  apply Ascii.eqb_eq in Hc. subst c.
  apply sem_opt_count in H2 as (-> & (o1 & -> & Ho1)).
  simpl in H3. destruct H3 as (t & -> & Ht & ->).
  apply sem_opt_count in H4 as (-> & (o2 & -> & Ho2)).
  apply sem_plus_eq in H5 as (l5 & -> & ->).
  assert (El1 : "="%char :: l1 = repeat "="%char (S (length l1))).
  { simpl. f_equal. clear - Hl1. induction l1 as [|x l1 IH]; [reflexivity|].
    simpl in Hl1. apply andb_true_iff in Hl1 as [Hx Hl].
    apply Ascii.eqb_eq in Hx. subst x. simpl. f_equal. auto. }
  exists (length l1), t, (("="%char :: l1) ++ o1 ++ t ++ o2 ++ "="%char :: l5).
  repeat split.
  - rewrite firstn_consumed. rewrite Es.
    replace ("="%char :: l1 ++ o1 ++ t ++ o2 ++ ("="%char :: l5) ++ s')
      with (("="%char :: l1) ++ o1 ++ t ++ o2 ++ ("="%char :: l5) ++ s')
      by reflexivity.
    rewrite firstn_consumed. now rewrite El1.
  - exact Ht.
  - rewrite Es. simpl. now rewrite <- !app_assoc.
  - rewrite Es. rewrite !count_eq_app in *.
    change ("="%char :: l1 ++ o1 ++ t ++ o2 ++ ("="%char :: l5) ++ s')
      with (["="%char] ++ l1 ++ o1 ++ t ++ o2 ++ ["="%char] ++ l5 ++ s').
    rewrite !count_eq_app.
    change (count_eq ["="%char]) with 1. lia.
Qed.

Lemma count_eq_hashes n : count_eq (repeat "#"%char n) = 0.
Proof. induction n as [|n IH]; [reflexivity|]. exact IH. Qed.

Lemma skipn_past (pre l s' : str) k :
  skipn (0 + length pre + (length (l ++ s') - length s') + k) (pre ++ l ++ s')
  = skipn k s'.
Proof.
  replace (0 + length pre + (length (l ++ s') - length s') + k)
    with (length (pre ++ l) + k) by (rewrite !length_app; lia).
  rewrite app_assoc, skipn_app, skipn_all2 by lia.
  replace (length (pre ++ l) + k - length (pre ++ l)) with k by lia.
  reflexivity.
Qed.

Lemma firstn_before (pre rest : str) :
  firstn (0 + length pre) (pre ++ rest) = pre.
Proof.
  cbn [Nat.add]. rewrite firstn_app, Nat.sub_diag, firstn_all. simpl.
  apply app_nil_r.
Qed.

(** One turn of the heading loop removes at least two [=] from the text. *)
Lemma header_step text m :
  search HEADER_REGEX text = Some m ->
  exists text',
    sub_once HEADER_REGEX replace_a_header text = Some (Ok text') /\
    count_eq text' + 2 <= count_eq text.
Proof.
  intros Hm. unfold sub_once. rewrite Hm. unfold search in Hm.
  apply search_from_sound in Hm as (pre & s0 & s' & -> & Hh & Hs & He).
  apply header_match_shape in Hh as (n & t & l & Hg & _ & -> & Hc).
  unfold replace_a_header, group. rewrite Hg. cbn [cap_get Nat.eqb bind].
  eexists. split; [reflexivity|].
  rewrite Hs, He, firstn_before, skipn_past.
  rewrite !count_eq_app, count_eq_hashes. rewrite count_eq_app in Hc.
  pose proof (count_eq_skipn 1 s').
  change (count_eq (lit " ")) with 0. change (count_eq [NL]) with 0. lia.
Qed.

Lemma header_loop_ends : forall fuel text,
  count_eq text <= 2 * fuel + 1 ->
  exists t, custom_re_sub fuel HEADER_REGEX replace_a_header text = Ok t /\
            count_eq t <= count_eq text.
Proof.
  induction fuel as [|fuel IH]; intros text Hc; simpl;
    destruct (search HEADER_REGEX text) as [m|] eqn:E.
  - apply header_step in E as (text' & _ & Hlt). lia.
  - unfold sub_once. rewrite E. eauto.
  - apply header_step in E as (text' & -> & Hlt). cbn [bind].
    destruct (IH text') as (t & Ht & Hle); [lia|].
    exists t. split; [exact Ht|lia].
  - unfold sub_once. rewrite E. eauto.
Qed.

(** X6: heading normalization comes to an end.  Each turn of its loop
    removes at least two [=] from the content, so a bound of half the
    number of [=] is enough: [clean_headers] then returns the document
    with a content in which the heading pattern is no longer found and
    which holds no more [=] than before; a content with fewer than two
    [=] is returned as it is. *)
Theorem clean_headers_terminates (fuel : nat) (self : Document) :
  count_eq (content self) <= 2 * fuel + 1 ->
  exists c,
    clean_headers fuel self = Ok (set_content self c) /\
    search HEADER_REGEX c = None /\
    count_eq c <= count_eq (content self) /\
    (count_eq (content self) <= 1 -> c = content self).
Proof.
  intros Hc. destruct (header_loop_ends fuel (content self) Hc) as (t & Ht & Hle).
  exists t. unfold clean_headers. rewrite Ht. cbn [bind].
  repeat split; try assumption.
  - exact (custom_re_sub_ok_no_match _ _ _ _ _ Ht).
  - intros H1. destruct (search HEADER_REGEX (content self)) as [m|] eqn:E.
    + apply header_step in E as (text' & _ & Hlt). lia.
    + destruct fuel; simpl in Ht; unfold sub_once in Ht; rewrite E in Ht;
        now injection Ht.
Qed.

Lemma clean_headers_terminates_witness :
  exists c,
    clean_headers 3 (mk_doc "x/" "= A =
text
== B ==") = Ok (set_content (mk_doc "x/" "= A =
text
== B ==") c) /\
    search HEADER_REGEX c = None /\
    count_eq c <= count_eq (content (mk_doc "x/" "= A =
text
== B ==")) /\
    (count_eq (content (mk_doc "x/" "= A =
text
== B ==")) <= 1 -> c = content (mk_doc "x/" "= A =
text
== B ==")).
Proof.
  apply (clean_headers_terminates 3 (mk_doc "x/" "= A =
text
== B ==")).
  vm_compute. lia.
Defined.

(** ** The resolver on paths without a common ancestor *)

Lemma parent_anchor_iter k P : anchor (Nat.iter k parent P) = anchor P.
Proof. exact (proj1 (iter_parent_parts k P)). Qed.

(** X7: when the source directory and the target do not have the same
    anchor (one is relative and the other absolute, or their roots
    differ), no ancestor of the source is an ancestor of the target, and
    the resolver exceeds every recursion limit; [render_link] then raises
    the same error. *)
Theorem regressive_relative_to_without_common_anchor
        (limit : nat) (P Q : Path) (text : str) :
  anchor P <> anchor Q ->
  regressive_relative_to limit P Q = Raise RecursionError /\
  render_link limit P Q text = Raise RecursionError.
Proof.
  intros Ha.
  assert (H : regressive_relative_to limit P Q = Raise RecursionError).
  { revert P Ha. induction limit as [|limit IH]; intros P Ha; simpl;
      unfold relative_to;
      (destruct (anchor Q =? anchor P) eqn:E;
       [apply Nat.eqb_eq in E; congruence|]); cbn [andb]; [reflexivity|].
    rewrite IH by exact Ha. reflexivity. }
  split; [exact H|]. unfold render_link. now rewrite H.
Qed.

Lemma regressive_relative_to_without_common_anchor_witness :
  regressive_relative_to 1000 (mkPath [lit "exported/a"])
                         (mkPath [EXPORT_DIR; lit "/x/"])
  = Raise RecursionError /\
  render_link 1000 (mkPath [lit "exported/a"])
              (mkPath [EXPORT_DIR; lit "/x/"]) (lit "X")
  = Raise RecursionError.
Proof.
  apply (regressive_relative_to_without_common_anchor
           1000 (mkPath [lit "exported/a"]) (mkPath [EXPORT_DIR; lit "/x/"])
           (lit "X")).
  discriminate.
Defined.

(** ** The corrected path *)

Lemma exists_and_is_dir fs p : exists_ fs p && is_dir fs p = is_dir fs p.
Proof. unfold exists_. destruct (is_dir fs p); [reflexivity|apply andb_false_r]. Qed.

Lemma wf_last_nonempty (ps : list str) :
  forallb seg_ok ps = true -> ps <> [] -> last ps [] <> [].
Proof.
  intros H Hne. destruct (exists_last Hne) as (ps' & x & ->).
  rewrite last_last. rewrite forallb_app in H.
  apply andb_true_iff in H as [_ H]. simpl in H. rewrite andb_true_r in H.
  apply seg_ok_keep in H. intros ->. discriminate H.
Qed.

Lemma with_suffix_md (p : Path) :
  name p <> [] ->
  exists nm, with_suffix p (lit ".md")
             = Ok {| anchor := anchor p;
                     parts := removelast (parts p) ++ [nm ++ lit ".md"] |}.
Proof.
  unfold with_suffix. destruct (name p) as [|c nm] eqn:E; [congruence|].
  intros _. destruct (suffix_of (c :: nm)); eauto.
Qed.

Lemma Document_init_path fs r d fs' :
  Document_init fs r = Ok (d, fs') ->
  wf_path (path d) = true /\
  id_ d = r_id r /\ version d = r_version r /\ slug d = r_slug r /\
  title d = r_title r /\ content d = r_content r /\
  documentPHID d = r_documentPHID r.
Proof.
  unfold Document_init.
  destruct (str_eqb (r_slug r) (lit "/"));
    (destruct (if negb _ then _ else _) as [fs1|e|]; cbn [bind];
     try discriminate; intros [= <- <-]; cbn [path id_ version slug title
       content documentPHID]; repeat split; apply mkPath_wf).
Qed.

Lemma correct_path_name fs d :
  wf_path (path d) = true ->
  exists p',
    correct_path fs d = Ok (set_path d p') /\
    anchor p' = anchor (path d) /\
    ends_with (lit ".md") (name p') /\
    (is_dir fs (path d) = true ->
     parts p' = parts (path d) ++ [lit "README.md"]) /\
    (is_dir fs (path d) = false -> parent p' = parent (path d)).
Proof.
  intros Hwf. unfold correct_path. rewrite exists_and_is_dir.
  destruct (is_dir fs (path d)) eqn:D.
  - eexists. split; [reflexivity|]. unfold path_join, name. cbn.
    rewrite last_last. repeat split; try discriminate.
    now exists (lit "README").
  - assert (Hne : parts (path d) <> []).
    { intros E. unfold is_dir in D. rewrite E in D. discriminate. }
    destruct (with_suffix_md (path d)) as (nm & ->).
    { unfold name. now apply wf_last_nonempty. }
    cbn [bind]. eexists. split; [reflexivity|]. unfold name, parent. cbn.
    rewrite last_last, removelast_last. repeat split; try discriminate.
    now exists nm.
Qed.

(** X8: when [correct_path] returns, it has changed the path only and
    kept its anchor, and the file name of the new path ends with [.md]:
    [README.md] below the provisional path when that path is a directory,
    and otherwise a name beside the provisional one, which then has a
    name that is not empty. *)
Theorem correct_path_gives_markdown_name (fs : FS) (d d' : Document) :
  correct_path fs d = Ok d' ->
  exists p',
    d' = set_path d p' /\
    anchor p' = anchor (path d) /\
    ends_with (lit ".md") (name p') /\
    (is_dir fs (path d) = true ->
     parts p' = parts (path d) ++ [lit "README.md"]) /\
    (is_dir fs (path d) = false ->
     parent p' = parent (path d) /\ name (path d) <> []).
Proof.
  unfold correct_path. rewrite exists_and_is_dir.
  destruct (is_dir fs (path d)) eqn:D.
  - intros [= <-]. eexists. split; [reflexivity|].
    unfold path_join, name. cbn. rewrite last_last.
    repeat split; try discriminate. now exists (lit "README").
  - unfold with_suffix. cbv zeta.
    destruct (name (path d)) as [|c nm] eqn:N; [discriminate|].
    set (nm' := match suffix_of (c :: nm) with [] => _ | _ => _ end).
    assert (Hnm : ends_with (lit ".md") nm')
      by (subst nm'; destruct (suffix_of (c :: nm)); eexists; reflexivity).
    cbn [bind]. intros [= <-].
    exists {| anchor := anchor (path d);
              parts := removelast (parts (path d)) ++ [nm'] |}.
    split; [reflexivity|]. unfold name, parent. cbn [anchor parts].
    rewrite last_last, removelast_last.
    repeat split; try discriminate; assumption.
Qed.

Lemma correct_path_gives_markdown_name_witness :
  exists p',
    set_path (mk_doc "a/b/" "c") (mkPath [lit "exported/a/b.md"])
    = set_path (mk_doc "a/b/" "c") p' /\
    anchor p' = anchor (path (mk_doc "a/b/" "c")) /\
    ends_with (lit ".md") (name p') /\
    (is_dir empty_fs (path (mk_doc "a/b/" "c")) = true ->
     parts p' = parts (path (mk_doc "a/b/" "c")) ++ [lit "README.md"]) /\
    (is_dir empty_fs (path (mk_doc "a/b/" "c")) = false ->
     parent p' = parent (path (mk_doc "a/b/" "c")) /\
     name (path (mk_doc "a/b/" "c")) <> []).
Proof.
  apply (correct_path_gives_markdown_name
           empty_fs (mk_doc "a/b/" "c")
           (set_path (mk_doc "a/b/" "c") (mkPath [lit "exported/a/b.md"]))).
  reflexivity.
Defined.

(** ** A dot in the last segment of a slug *)

Lemma rfind_absent c s : has_chr c s = false -> rfind c s = None.
Proof.
  induction s as [|x s IH]; simpl; [reflexivity|].
  intros H. apply orb_false_iff in H as [Hx Hs]. now rewrite (IH Hs), Hx.
Qed.

Lemma rfind_last_dot c stem ext :
  has_chr c ext = false -> rfind c (stem ++ c :: ext) = Some (length stem).
Proof.
  intros H. induction stem as [|x stem IH]; simpl.
  - now rewrite (rfind_absent _ _ H), Ascii.eqb_refl.
  - now rewrite IH.
Qed.

Lemma suffix_of_dotted stem ext :
  stem <> [] -> ext <> [] -> has_chr chr_dot ext = false ->
  suffix_of (stem ++ chr_dot :: ext) = chr_dot :: ext.
Proof.
  intros Hs He Hd. unfold suffix_of. rewrite (rfind_last_dot _ _ _ Hd).
  assert (H1 : (0 <? length stem) = true)
    by (apply Nat.ltb_lt; destruct stem; [congruence|simpl; lia]).
  assert (H2 : (length stem <? length (stem ++ chr_dot :: ext) - 1) = true).
  { apply Nat.ltb_lt. rewrite length_app. cbn [length].
    destruct ext; [congruence|cbn [length]; lia]. }
  rewrite H1, H2. cbn [andb].
  rewrite skipn_app, skipn_all, Nat.sub_diag. reflexivity.
Qed.

(** X9: when the last segment of the provisional path has an extension
    (a dot inside the name, with something before and after it) and the
    path is not a directory, [correct_path] replaces that extension by
    [.md] instead of adding [.md] to the name; two slugs that differ in
    that extension only are given the same file. *)
Theorem correct_path_replaces_extension
        (fs : FS) (d : Document) (ps : list str) (stem ext : str) :
  parts (path d) = ps ++ [stem ++ chr_dot :: ext] ->
  stem <> [] -> ext <> [] -> has_chr chr_dot ext = false ->
  is_dir fs (path d) = false ->
  correct_path fs d
  = Ok (set_path d {| anchor := anchor (path d);
                      parts := ps ++ [stem ++ lit ".md"] |}).
Proof.
  intros Hp Hs He Hd Hdir. unfold correct_path.
  rewrite exists_and_is_dir, Hdir. unfold with_suffix, name.
  rewrite Hp, last_last, removelast_last.
  destruct (stem ++ chr_dot :: ext) as [|c nm] eqn:E;
    [now destruct stem|]. rewrite <- E.
  rewrite (suffix_of_dotted stem ext Hs He Hd). cbn [bind].
  replace (length (stem ++ chr_dot :: ext) - length (chr_dot :: ext))
    with (length stem) by (rewrite length_app; lia).
  rewrite firstn_app, firstn_all, Nat.sub_diag. cbn [firstn].
  now rewrite app_nil_r.
Qed.

Lemma correct_path_replaces_extension_witness :
  correct_path empty_fs (mk_doc "release/v1.2/" "")
  = Ok (set_path (mk_doc "release/v1.2/" "")
                 {| anchor := anchor (path (mk_doc "release/v1.2/" ""));
                    parts := [lit "exported"; lit "release"] ++ [lit "v1" ++ lit ".md"] |}).
Proof.
  apply (correct_path_replaces_extension
           empty_fs (mk_doc "release/v1.2/" "")
           [lit "exported"; lit "release"] (lit "v1") (lit "2"));
    try reflexivity; discriminate.
Defined.

(** ** The directories that the constructor makes *)

Lemma path_eqb_refl p : path_eqb p p = true.
Proof.
  unfold path_eqb. rewrite Nat.eqb_refl. simpl.
  induction (parts p) as [|x l IH]; [reflexivity|].
  now rewrite str_eqb_refl.
Qed.

Lemma is_dir_add_dir fs p q :
  is_dir fs q = true -> is_dir (add_dir fs p) q = true.
Proof.
  unfold is_dir, add_dir. cbn [dirs]. destruct (parts q); [reflexivity|].
  cbn [existsb]. intros ->. apply orb_true_r.
Qed.

Lemma is_dir_add_dir_same fs p : is_dir (add_dir fs p) p = true.
Proof.
  unfold is_dir, add_dir. cbn [dirs]. destruct (parts p) eqn:E; [reflexivity|].
  cbn [existsb]. now rewrite path_eqb_refl.
Qed.

Lemma mkdir_chain_effect a : forall todo fs done fs',
  mkdir_chain fs a done todo = Ok fs' ->
  files fs' = files fs /\
  (forall q, is_dir fs q = true -> is_dir fs' q = true) /\
  (todo <> [] -> is_dir fs' {| anchor := a; parts := done ++ todo |} = true).
Proof.
  induction todo as [|x todo IH]; intros fs done fs' H; simpl in H.
  - injection H as <-. repeat split; [auto|congruence].
  - destruct (is_file fs _); [discriminate|].
    set (p := {| anchor := a; parts := done ++ [x] |}) in *.
    set (fs1 := if is_dir fs p then fs else add_dir fs p) in *.
    assert (Hf : files fs1 = files fs) by (subst fs1; now destruct (is_dir fs p)).
    assert (Hm : forall q, is_dir fs q = true -> is_dir fs1 q = true).
    { intros q Hq. subst fs1. destruct (is_dir fs p); [exact Hq|].
      now apply is_dir_add_dir. }
    assert (Hp : is_dir fs1 p = true).
    { subst fs1. destruct (is_dir fs p) eqn:D; [exact D|].
      apply is_dir_add_dir_same. }
    destruct (IH _ _ _ H) as (Hf' & Hm' & Hd'). repeat split.
    + congruence.
    + auto.
    + intros _. destruct todo as [|y todo].
      * simpl in H. injection H as <-. exact Hp.
      * replace (done ++ x :: y :: todo) with ((done ++ [x]) ++ y :: todo)
          by (now rewrite <- app_assoc).
        apply Hd'. discriminate.
Qed.

(** X10: when the constructor returns, the directory above the
    provisional path exists; nothing was made when it existed before, no
    file was touched, and every directory that existed still does. *)
Theorem Document_init_makes_parent (fs : FS) (r : Row) (d : Document) (fs' : FS) :
  Document_init fs r = Ok (d, fs') ->
  exists_ fs' (parent (path d)) = true /\
  (exists_ fs (parent (path d)) = true -> fs' = fs) /\
  files fs' = files fs /\
  (forall q, is_dir fs q = true -> is_dir fs' q = true).
Proof.
  unfold Document_init. cbv zeta.
  set (p := if str_eqb (r_slug r) (lit "/") then _ else _).
  destruct (exists_ fs (parent p)) eqn:E; cbn [negb bind].
  - intros [= <- <-]. cbn [path]. auto.
  - destruct (mkdir_p fs (parent p)) as [fs1|e|] eqn:M; cbn [bind];
      try discriminate.
    intros [= <- <-]. cbn [path]. unfold mkdir_p in M.
    destruct (mkdir_chain_effect _ _ _ _ _ M) as (Hf & Hm & Hd).
    repeat split; try assumption; [|intros H; rewrite E in H; discriminate H].
    unfold exists_. destruct (parts (parent p)) as [|x l] eqn:Ep.
    + unfold is_dir. now rewrite Ep.
    + cbn [app] in Hd. rewrite <- Ep in Hd.
      replace {| anchor := anchor (parent p); parts := parts (parent p) |}
        with (parent p) in Hd by (now destruct (parent p)).
      rewrite Hd; [reflexivity|]. rewrite Ep. discriminate.
Qed.

Lemma Document_init_makes_parent_witness :
  let fs' := {| dirs := [mkPath [lit "exported/a"]; mkPath [lit "exported"]];
                files := [] |} in
  exists_ fs' (parent (path (mk_doc "a/b/" "c"))) = true /\
  (exists_ empty_fs (parent (path (mk_doc "a/b/" "c"))) = true -> fs' = empty_fs) /\
  files fs' = files empty_fs /\
  (forall q, is_dir empty_fs q = true -> is_dir fs' q = true).
Proof.
  apply (Document_init_makes_parent
           empty_fs
           {| r_id := 1; r_version := 1; r_slug := lit "a/b/"; r_title := lit "T";
              r_content := lit "c"; r_documentPHID := lit "P" |}
           (mk_doc "a/b/" "c")).
  reflexivity.
Defined.

(** ** The explicit link macro *)

Lemma spaces_no_bar w : forallb is_space w = true -> has_chr chr_bar w = false.
Proof.
  induction w as [|c w IH]; simpl; [reflexivity|].
  intros H. apply andb_true_iff in H as [Hc Hw]. rewrite (IH Hw).
  destruct (Ascii.eqb c chr_bar) eqn:E; [|reflexivity].
  apply Ascii.eqb_eq in E. subst c. discriminate Hc.
Qed.

Lemma unique_occurrence (c : ascii) : forall a a' b b',
  has_chr c a = false -> has_chr c b = false ->
  a ++ c :: b = a' ++ c :: b' -> a = a'.
Proof.
  induction a as [|x a IH]; intros [|y a'] b b' Ha Hb E; simpl in *.
  - reflexivity.
  - injection E as <- E. subst b. rewrite has_chr_app in Hb. simpl in Hb.
    rewrite Ascii.eqb_refl, orb_true_r in Hb. discriminate.
  - injection E as -> _. rewrite Ascii.eqb_refl in Ha. discriminate.
  - injection E as <- E. apply orb_false_iff in Ha as [_ Ha].
    f_equal. eapply IH; eassumption.
Qed.

Lemma link_tail_needs_bar {A} s g (k : str -> caps -> option A) x :
  mtch link_tail s g k = Some x ->
  exists sp rest, s = sp ++ chr_bar :: rest /\ forallb is_space sp = true.
Proof.
  intros H. apply mtch_sound in H as (s' & g' & Hs & _).
  destruct Hs as (s1 & g1 & H1 & s2 & g2 & H2 & _).
  apply sem_spaces in H1 as (sp & -> & Hsp & _).
  apply sem_one_lit in H2 as [-> _]. eauto.
Qed.

(** A slug group followed by the closing of a token, on a text that ends
    with the token. *)
Lemma slug_group_then_closing {A} n (k : str -> caps -> option A) g c0 s w x :
  is_space c0 = false -> slug_like (c0 :: s) -> forallb is_space w = true ->
  k [] ((n, c0 :: s) :: g) = Some x ->
  mtch (Cat (Grp n (Cat (Star Dot) (One NonSpace))) closing)
       ((c0 :: s) ++ w ++ lit "]]") g k = Some x.
Proof.
  intros Hc0 (l & c & Es & Hl & Hc) Hw Hk.
  cbn [mtch]. rewrite Es, <- app_assoc. cbn [app].
  apply (dot_star_last
           (fun s'0 g' =>
              mtch closing s'0
                ((n, firstn (length (l ++ c :: w ++ lit "]]") - length s'0)
                            (l ++ c :: w ++ lit "]]")) :: g') k)
           l c (w ++ lit "]]") g); try assumption.
  - intros t1 t2 E.
    destruct (closing_suffixes w Hw t1 t2 E)
      as [(y & t' & -> & Hy) | [ -> | [ -> | -> ] ] ]; try reflexivity.
    cbn [mtch atom_ok]. now rewrite Hy.
  - apply closing_matches; [exact Hw|].
    replace (l ++ c :: w ++ lit "]]") with ((l ++ [c]) ++ w ++ lit "]]")
      by (now rewrite <- app_assoc).
    rewrite firstn_consumed, <- Es. exact Hk.
Qed.

Lemma link_tail_matches {A} (k : str -> caps -> option A) g w2 w3 c1 t w4 x :
  forallb is_space w2 = true -> forallb is_space w3 = true ->
  forallb is_space w4 = true ->
  is_space c1 = false -> slug_like (c1 :: t) ->
  k [] ((2, c1 :: t) :: g) = Some x ->
  mtch link_tail (w2 ++ chr_bar :: w3 ++ (c1 :: t) ++ w4 ++ lit "]]") g k
  = Some x.
Proof.
  intros Hw2 Hw3 Hw4 Hc1 Ht Hk.
  change link_tail
    with (Cat (Star Space) (Cat (L "|") (Cat (Star Space)
            (Cat (Grp 2 (Cat (Star Dot) (One NonSpace))) closing)))).
  cbn [mtch L]. apply star_app; [exact Hw2|].
  rewrite star_stop by reflexivity.
  change (atom_ok (Lit "|"%char) chr_bar) with true. cbn iota.
  apply star_app; [exact Hw3|].
  change ((c1 :: t) ++ w4 ++ lit "]]") with (c1 :: t ++ w4 ++ lit "]]").
  rewrite star_stop by exact Hc1.
  change (c1 :: t ++ w4 ++ lit "]]") with ((c1 :: t) ++ w4 ++ lit "]]").
  exact (slug_group_then_closing 2 k g c1 t w4 x Hc1 Ht Hw4 Hk).
Qed.

(** On a text that is one explicit link, with a url and a display text
    that start and end with characters that are not white space and hold
    no line feed, and no [|] in the display text, the pattern matches the
    whole text: group 1 is the url and group 2 the display text. *)
Lemma search_explicit_link w1 c0 u w2 w3 c1 t w4 :
  forallb is_space w1 = true -> forallb is_space w2 = true ->
  forallb is_space w3 = true -> forallb is_space w4 = true ->
  is_space c0 = false -> slug_like (c0 :: u) ->
  is_space c1 = false -> slug_like (c1 :: t) ->
  has_chr chr_bar (c1 :: t) = false ->
  search LINK_REGEX
         (lit "[[" ++ w1 ++ (c0 :: u) ++ w2 ++ chr_bar :: w3 ++ (c1 :: t)
              ++ w4 ++ lit "]]")
  = Some {| m_start := 0;
            m_end := length (lit "[[" ++ w1 ++ (c0 :: u) ++ w2 ++ chr_bar :: w3
                               ++ (c1 :: t) ++ w4 ++ lit "]]");
            m_groups := [(2, c1 :: t); (1, c0 :: u)] |}.
Proof.
  intros Hw1 Hw2 Hw3 Hw4 Hc0 Hu Hc1 Ht Hbar.
  set (R := w3 ++ (c1 :: t) ++ w4 ++ lit "]]").
  assert (HR : has_chr chr_bar R = false).
  { subst R. rewrite !has_chr_app, Hbar, !spaces_no_bar by assumption.
    reflexivity. }
  assert (M : match_here LINK_REGEX
                (lit "[[" ++ w1 ++ (c0 :: u) ++ w2 ++ chr_bar :: R)
              = Some ([], [(2, c1 :: t); (1, c0 :: u)])).
  { unfold match_here.
    change LINK_REGEX
      with (Cat (L "[") (Cat (L "[") (Cat (Star Space)
             (Cat (Grp 1 (Cat (Star Dot) (One NonSpace))) link_tail)))).
    change (lit "[[" ++ w1 ++ (c0 :: u) ++ w2 ++ chr_bar :: R)
      with ("["%char :: "["%char :: w1 ++ (c0 :: u) ++ w2 ++ chr_bar :: R).
    cbn [mtch L].
    change (atom_ok (Lit "["%char) "["%char) with true. cbn iota.
    apply star_app; [exact Hw1|].
    change ((c0 :: u) ++ w2 ++ chr_bar :: R) with (c0 :: u ++ w2 ++ chr_bar :: R).
    rewrite star_stop by exact Hc0.
    change (c0 :: u ++ w2 ++ chr_bar :: R) with ((c0 :: u) ++ w2 ++ chr_bar :: R).
    destruct Hu as (l & c & Es & Hl & Hc).
    rewrite Es, <- app_assoc. cbn [app].
    apply (dot_star_last
             (fun s'0 g' =>
                mtch link_tail s'0
                  ((1, firstn (length (l ++ c :: w2 ++ chr_bar :: R) - length s'0)
                              (l ++ c :: w2 ++ chr_bar :: R)) :: g')
                  (fun s1 g => Some (s1, g)))
             l c (w2 ++ chr_bar :: R) []); try assumption.
    - intros t1 t2 E.
      destruct (mtch (One NonSpace) t2 [] _) as [y|] eqn:My; [exfalso|reflexivity].
      cbn [mtch] in My. destruct t2 as [|z t3]; [discriminate|].
      destruct (atom_ok NonSpace z) eqn:Hz; [|discriminate].
      apply link_tail_needs_bar in My as (sp & rest & -> & Hsp).
      replace (t1 ++ z :: sp ++ chr_bar :: rest)
        with ((t1 ++ z :: sp) ++ chr_bar :: rest) in E
        by (now rewrite <- app_assoc).
      apply unique_occurrence in E;
        [|now apply spaces_no_bar|exact HR].
      rewrite E, forallb_app in Hw2. apply andb_true_iff in Hw2 as [_ Hw2].
      cbn [forallb] in Hw2. apply andb_true_iff in Hw2 as [Hz' _].
      cbn [atom_ok] in Hz. rewrite Hz' in Hz. discriminate.
    - replace (l ++ c :: w2 ++ chr_bar :: R)
        with ((l ++ [c]) ++ w2 ++ chr_bar :: R) by (now rewrite <- app_assoc).
      rewrite firstn_consumed, <- Es. subst R.
      now apply link_tail_matches. }
  rewrite (search_at_head _ _ _ _ M). cbn [length]. now rewrite Nat.sub_0_r.
Qed.

Lemma re_sub_whole r f s m rep :
  search r [] = None ->
  search r s = Some m -> m_start m = 0 -> m_end m = length s ->
  f m = Ok rep -> re_sub r f s = Ok rep.
Proof.
  intros H0 Hm Hs He Hf. unfold re_sub.
  destruct (length s) as [|n] eqn:El.
  - destruct s; [|discriminate]. rewrite H0 in Hm. discriminate.
  - cbn [re_sub_from]. rewrite Hm, Hf, Hs, He. cbn [bind firstn app].
    rewrite <- El, skipn_all.
    assert (E : re_sub_from n r f [] = Ok [])
      by (destruct n; simpl; now rewrite H0).
    rewrite E. cbn [bind]. now rewrite app_nil_r.
Qed.

Lemma replace_a_raw_link_eq limit h idx self m sl :
  format_slug (group m 1) = Ok sl ->
  replace_a_raw_link limit h idx self m
  = match dict_get idx sl with
    | Some i =>
        d <- deref h i ;;
        render_link limit (parent (path self)) (path d) (group m 2)
    | None => Ok (lit "[" ++ group m 2 ++ lit "](" ++ group m 1 ++ lit ")")
    end.
Proof. unfold replace_a_raw_link. now intros ->. Qed.

(** X11: the explicit link macro.  For every match of the link pattern
    in a content, the url is not empty; when its normalized form is a key
    of the index the replacement is the link that [render_link] makes to
    the document found there, with the display text of the token, and
    otherwise it is [[text](url)] with the url as written.  A content
    that is one token [[[ url | text ]]], with no [|] in the text, is
    matched whole, and with an url that the index does not hold [re.sub]
    returns [[text](url)] for it. *)
Theorem explicit_link_rewrite
        (limit : nat) (h : store) (idx : dict nat) (self : Document) :
  (forall text m,
      search LINK_REGEX text = Some m ->
      exists sl,
        format_slug (group m 1) = Ok sl /\
        match dict_get idx sl with
        | Some i =>
            forall d, deref h i = Ok d ->
              replace_a_raw_link limit h idx self m
              = render_link limit (parent (path self)) (path d) (group m 2)
        | None =>
            replace_a_raw_link limit h idx self m
            = Ok (lit "[" ++ group m 2 ++ lit "](" ++ group m 1 ++ lit ")")
        end) /\
  (forall w1 c0 u w2 w3 c1 t w4 sl,
      forallb is_space w1 = true -> forallb is_space w2 = true ->
      forallb is_space w3 = true -> forallb is_space w4 = true ->
      is_space c0 = false -> slug_like (c0 :: u) ->
      is_space c1 = false -> slug_like (c1 :: t) ->
      has_chr chr_bar (c1 :: t) = false ->
      format_slug (c0 :: u) = Ok sl -> dict_get idx sl = None ->
      re_sub LINK_REGEX (replace_a_raw_link limit h idx self)
             (lit "[[" ++ w1 ++ (c0 :: u) ++ w2 ++ chr_bar :: w3 ++ (c1 :: t)
                  ++ w4 ++ lit "]]")
      = Ok (lit "[" ++ (c1 :: t) ++ lit "](" ++ (c0 :: u) ++ lit ")")).
Proof.
  split.
  - intros text m Hm. apply search_link_groups in Hm as (Hu & _).
    pose proof (format_slug_nonempty _ (slug_like_nonempty _ Hu)) as Hf.
    eexists. split; [exact Hf|].
    rewrite (replace_a_raw_link_eq limit h idx self m _ Hf).
    destruct (dict_get idx _) as [i|]; [|reflexivity].
    now intros d ->.
  - intros w1 c0 u w2 w3 c1 t w4 sl Hw1 Hw2 Hw3 Hw4 Hc0 Hu Hc1 Ht Hbar Hf Hi.
    eapply re_sub_whole.
    + reflexivity.
    + now apply search_explicit_link.
    + reflexivity.
    + reflexivity.
    + rewrite (replace_a_raw_link_eq limit h idx self _ sl) by exact Hf.
      now rewrite Hi.
Qed.

(** The token of the specification, with an index that does not hold the
    url. *)
Example explicit_link_example :
  res_map content
          (clean_links 10 10 [] []
             (mk_doc "x/" "[[ http://example.com/x/ | Label ]]"))
  = Ok (lit "[Label](http://example.com/x/)").
Proof. vm_compute. reflexivity. Qed.

(** ** [get_filename] *)

Lemma os_path_join_ends a b : ends_with b (os_path_join a b).
Proof.
  unfold os_path_join, ends_with. destruct (prefixb [chr_slash] b).
  - now exists [].
  - destruct (opt_last a) as [c|].
    + destruct (Ascii.eqb c chr_slash).
      * now exists a.
      * exists (a ++ [chr_slash]). now rewrite <- app_assoc.
    + now exists a.
Qed.

Lemma ends_with_readme s : ends_with (lit "README.md") s -> ends_with (lit ".md") s.
Proof.
  intros (pre & ->). exists (pre ++ lit "README"). now rewrite <- app_assoc.
Qed.

Lemma mkdir_chain_outcome a : forall todo fs done,
  (exists fs', mkdir_chain fs a done todo = Ok fs') \/
  mkdir_chain fs a done todo = Raise OSError.
Proof.
  induction todo as [|x todo IH]; intros fs done; simpl; [eauto|].
  destruct (is_file fs _); [now right|]. apply IH.
Qed.

(** X13: [get_filename] raises its bad slug exception exactly for a slug
    other than [/] that has no segment; for the slug [/] it returns
    [README.md] in the base directory without touching the filesystem;
    and whenever it returns, the name ends with [.md]. *)
Theorem get_filename_outcome (fs : FS) (d : Document) (base_dir : str) :
  (get_filename fs d base_dir = Raise BadSlug <->
   slug d <> lit "/" /\
   filter (fun s => 0 <? length s) (split chr_slash (slug d)) = []) /\
  (slug d = lit "/" ->
   get_filename fs d base_dir = Ok (os_path_join base_dir (lit "README.md"), fs)) /\
  (forall f fs', get_filename fs d base_dir = Ok (f, fs') ->
                 ends_with (lit ".md") f).
Proof.
  unfold get_filename. cbv zeta.
  destruct (str_eqb (slug d) (lit "/")) eqn:E.
  - apply str_eqb_eq in E. split; [split|split].
    + intros H. discriminate H.
    + intros [H _]. contradiction.
    + reflexivity.
    + intros f fs' [= <- <-]. apply ends_with_readme, os_path_join_ends.
  - apply str_eqb_neq in E.
    destruct (filter (fun s => 0 <? length s) (split chr_slash (slug d)))
      as [|x l] eqn:F.
    + split; [split|split].
      * intros _. now split.
      * reflexivity.
      * intros H. contradiction.
      * intros f fs' H. discriminate H.
    + set (pth := fold_left os_path_join (removelast (x :: l)) base_dir).
      assert (Hmk : forall y : res FS,
                 (y = Raise OSError \/ exists fs1, y = Ok fs1) ->
                 (y <- y ;;
                  if exists_ y (mkPath [os_path_join pth (last (x :: l) [])])
                  then Ok (os_path_join (os_path_join pth (last (x :: l) []))
                                        (lit "README.md"), y)
                  else Ok (os_path_join pth (last (x :: l) []) ++ lit ".md", y))
                 <> Raise BadSlug /\
                 forall f fs',
                   (y <- y ;;
                    if exists_ y (mkPath [os_path_join pth (last (x :: l) [])])
                    then Ok (os_path_join (os_path_join pth (last (x :: l) []))
                                          (lit "README.md"), y)
                    else Ok (os_path_join pth (last (x :: l) []) ++ lit ".md", y))
                   = Ok (f, fs') -> ends_with (lit ".md") f).
      { intros y [->|(fs1 & ->)]; cbn [bind].
        - split; [discriminate|]. intros f fs' H. discriminate H.
        - destruct (exists_ fs1 _);
            (split; [discriminate|]); intros f fs' [= <- <-].
          + apply ends_with_readme, os_path_join_ends.
          + now eexists. }
      match goal with
      | |- context [bind ?y _] =>
          assert (Hy : y = Raise OSError \/ exists fs1, y = Ok fs1)
      end.
      { destruct pth; [now left|]. destruct (is_dir fs _); [eauto|].
        unfold mkdir_p.
        destruct (mkdir_chain_outcome (anchor (mkPath [a :: pth]))
                    (parts (mkPath [a :: pth])) fs []) as [H|H]; eauto. }
      destruct (Hmk _ Hy) as [H1 H2]. split; [split|split].
      * intros H. contradiction.
      * intros [_ H]. discriminate H.
      * intros H. contradiction.
      * exact H2.
Qed.

(** ** The run as a whole *)

Lemma fetch_documents_fields : forall rows fs ds fs1,
  fetch_documents fs rows = Ok (ds, fs1) ->
  Forall2 built_from rows ds /\
  Forall (fun d => wf_path (path d) = true) ds.
Proof.
  induction rows as [|r rows IH]; intros fs ds fs1 H; simpl in H.
  - injection H as <- <-. split; constructor.
  - destruct (Document_init fs r) as [[d fs0]|e|] eqn:D; try discriminate.
    cbn [bind] in H.
    destruct (fetch_documents fs0 rows) as [[ds' fs2]|e|] eqn:F;
      try discriminate.
    cbn [bind] in H. injection H as <- <-.
    destruct (IH _ _ _ F) as [H2 Hw].
    apply Document_init_path in D as (Hwf & Hi & Hv & Hs & Ht & _ & Hp).
    split; constructor; try assumption. repeat split; assumption.
Qed.

Lemma select_max_facts docs :
  NoDup (map documentPHID (select_max_version_of_documents docs)) /\
  (forall p, In p (map documentPHID docs) <->
             In p (map documentPHID (select_max_version_of_documents docs))) /\
  (forall d, In d (select_max_version_of_documents docs) -> first_max docs d).
Proof.
  pose proof (fold_keep_max_inv docs [] [] max_inv_nil) as [ND HK HB].
  simpl in *. unfold select_max_version_of_documents.
  rewrite values_phids by (intros k d Hd; now destruct (HB _ _ Hd)).
  repeat split; try assumption; try apply HK.
  intros d Hd. unfold dict_values in Hd.
  apply in_map_iff in Hd as [[k d'] [<- Hd]]. now destruct (HB _ _ Hd).
Qed.

Lemma first_max_in docs d : first_max docs d -> In d docs.
Proof. intros (l1 & l2 & -> & _). apply in_elt. Qed.

Lemma first_max_greatest docs d e :
  first_max docs d -> In e docs -> documentPHID e = documentPHID d ->
  (version e <= version d)%Z.
Proof.
  intros (l1 & l2 & -> & H1 & H2) He Hp.
  apply in_app_or in He as [He|[<-|He]].
  - specialize (H1 e He Hp). lia.
  - lia.
  - exact (H2 e He Hp).
Qed.

Lemma map_res_correct_path fs : forall ds cs,
  map_res (correct_path fs) ds = Ok cs ->
  Forall (fun d => wf_path (path d) = true) ds ->
  Forall2 (fun d c => exists p', c = set_path d p' /\
                                 ends_with (lit ".md") (name p')) ds cs.
Proof.
  induction ds as [|d ds IH]; intros cs H Hw; simpl in H.
  - injection H as <-. constructor.
  - inversion Hw as [|? ? Hd Hds]; subst.
    destruct (correct_path_name fs d Hd) as (p' & Hc & _ & He & _).
    rewrite Hc in H. cbn [bind] in H.
    destruct (map_res (correct_path fs) ds) as [cs'|e|] eqn:M; try discriminate.
    cbn [bind] in H. injection H as <-.
    constructor; [eauto|]. now apply IH.
Qed.

Lemma clean_content_keeps limit fuel h idx d d' :
  clean_content limit fuel h idx d = Ok d' -> d' = set_content d (content d').
Proof.
  unfold clean_content, clean_links, clean_headers.
  destruct (re_sub _ _ _) as [c1|e|]; cbn [bind]; try discriminate.
  destruct (custom_re_sub fuel INTERNAL_LINK_REGEX _ c1) as [c2|e|];
    cbn [bind]; try discriminate.
  destruct (custom_re_sub fuel HEADER_REGEX _ _) as [c3|e|];
    cbn [bind]; try discriminate.
  intros [= <-]. reflexivity.
Qed.

Lemma Forall2_replace_nth {A} (R : A -> A -> Prop) :
  (forall a, R a a) ->
  forall l i a a', nth_error l i = Some a -> R a a' ->
                   Forall2 R l (replace_nth l i a').
Proof.
  intros Hrefl. induction l as [|x l IH]; intros [|i] a a' Hn Hr;
    simpl in *; try discriminate.
  - injection Hn as ->. constructor; [assumption|].
    clear - Hrefl. induction l; constructor; auto.
  - constructor; [apply Hrefl|]. eapply IH; eassumption.
Qed.

Lemma Forall2_trans_same {A} (R : A -> A -> Prop) :
  (forall a b c, R a b -> R b c -> R a c) ->
  forall l1 l2 l3, Forall2 R l1 l2 -> Forall2 R l2 l3 -> Forall2 R l1 l3.
Proof.
  intros Ht l1 l2 l3 H12. revert l3.
  induction H12; intros l3 H23; inversion H23; subst; constructor; eauto.
Qed.

Lemma clean_each_keeps limit fuel idx : forall todo h h',
  clean_each limit fuel idx todo h = Ok h' ->
  Forall2 (fun d d' => d' = set_content d (content d')) h h'.
Proof.
  induction todo as [|i todo IH]; intros h h' H; simpl in H.
  - injection H as <-. induction h; constructor; auto. now destruct a.
  - unfold deref in H. destruct (nth_error h i) as [d|] eqn:N;
      cbn [bind] in H; try discriminate.
    destruct (clean_content limit fuel h idx d) as [d'|e|] eqn:C;
      cbn [bind] in H; try discriminate.
    apply clean_content_keeps in C.
    eapply Forall2_trans_same; [| |apply (IH _ _ H)].
    + intros a b c -> ->. reflexivity.
    + eapply Forall2_replace_nth; [|exact N|exact C].
      intros a. now destruct a.
Qed.

Lemma path_eqb_eq p q : path_eqb p q = true -> p = q.
Proof.
  destruct p as [a ps], q as [b qs]. unfold path_eqb. cbn [anchor parts].
  intros H. apply andb_true_iff in H as [Ha Hp]. apply Nat.eqb_eq in Ha.
  subst b. f_equal. revert qs Hp.
  induction ps as [|x ps IH]; intros [|y qs] H; try discriminate;
    [reflexivity|].
  apply andb_true_iff in H as [Hx H]. apply str_eqb_eq in Hx. subst y.
  f_equal. now apply IH.
Qed.

Lemma write_text_files fs p t fs' :
  write_text fs p t = Ok fs' ->
  is_file fs' p = true /\
  (forall q, is_file fs q = true -> is_file fs' q = true).
Proof.
  unfold write_text. destruct (_ || _); [discriminate|]. intros [= <-].
  unfold is_file. cbn [files existsb fst]. rewrite path_eqb_refl. split;
    [reflexivity|].
  intros q Hq. destruct (path_eqb q p) eqn:E; [reflexivity|]. cbn [orb].
  apply existsb_exists in Hq as (e & He & Hqe).
  apply existsb_exists. exists e. split; [|exact Hqe].
  apply filter_In. split; [exact He|].
  destruct (path_eqb p (fst e)) eqn:Ep; [|reflexivity].
  apply path_eqb_eq in Ep, Hqe. subst. now rewrite path_eqb_refl in E.
Qed.

Lemma save_each_files : forall docs fs fs2,
  save_each fs docs = Ok fs2 ->
  (forall q, is_file fs q = true -> is_file fs2 q = true) /\
  (forall d, In d docs -> is_file fs2 (path d) = true).
Proof.
  induction docs as [|d docs IH]; intros fs fs2 H; simpl in H.
  - injection H as <-. split; [auto|intros d []].
  - unfold save in H.
    destruct (write_text fs (path d) (content d)) as [fs1|e|] eqn:W;
      cbn [bind] in H; try discriminate.
    apply write_text_files in W as [Wp Wm].
    destruct (IH _ _ H) as [Hm Hd]. split.
    + auto.
    + intros d' [<-|Hin]; auto.
Qed.

Lemma Forall2_In_r {A B} (R : A -> B -> Prop) l1 l2 y :
  Forall2 R l1 l2 -> In y l2 -> exists x, In x l1 /\ R x y.
Proof.
  induction 1 as [|a b l1 l2 Hab _ IH]; intros H; [contradiction|].
  destruct H as [<-|H].
  - exists a. split; [now left|assumption].
  - destruct (IH H) as (x & Hx & Hr). exists x. split; [now right|assumption].
Qed.

Lemma Forall2_In_l {A B} (R : A -> B -> Prop) l1 l2 x :
  Forall2 R l1 l2 -> In x l1 -> exists y, In y l2 /\ R x y.
Proof.
  induction 1 as [|a b l1 l2 Hab _ IH]; intros H; [contradiction|].
  destruct H as [<-|H].
  - exists b. split; [now left|assumption].
  - destruct (IH H) as (y & Hy & Hr). exists y. split; [now right|assumption].
Qed.

Lemma Forall2_map_eq {A B C} (R : A -> B -> Prop) (f : A -> C) (g : B -> C) l1 l2 :
  (forall a b, R a b -> f a = g b) -> Forall2 R l1 l2 -> map f l1 = map g l2.
Proof.
  intros Hfg. induction 1; simpl; [reflexivity|]. f_equal; auto.
Qed.

(** X12: when [main] returns, the documents it wrote are one for each
    documentPHID of the rows, in pairwise different identifiers; each of
    them was built from a row of the input whose version is the greatest
    among the rows with that identifier, has a path whose name ends with
    [.md], and has a file at that path in the final filesystem. *)
Theorem main_writes_one_file_per_document
        (limit fuel : nat) (fs : FS) (rows : list Row)
        (docs : store) (fs2 : FS) :
  main limit fuel fs rows = Ok (docs, fs2) ->
  NoDup (map documentPHID docs) /\
  (forall p, In p (map r_documentPHID rows) <-> In p (map documentPHID docs)) /\
  (forall d, In d docs ->
     ends_with (lit ".md") (name (path d)) /\
     is_file fs2 (path d) = true /\
     (exists r, In r rows /\ built_from r d) /\
     (forall r, In r rows -> r_documentPHID r = documentPHID d ->
                (r_version r <= version d)%Z)).
Proof.
  unfold main. intros H.
  destruct (fetch_documents fs rows) as [[all fs1]|e|] eqn:F;
    cbn [bind] in H; try discriminate.
  destruct (map_res (correct_path fs1) (select_max_version_of_documents all))
    as [corrected|e|] eqn:M; cbn [bind] in H; try discriminate.
  destruct (clean_each limit fuel _ _ corrected) as [cleaned|e|] eqn:C;
    cbn [bind] in H; try discriminate.
  destruct (save_each fs1 cleaned) as [fs3|e|] eqn:S;
    cbn [bind] in H; try discriminate.
  injection H as <- <-.
  apply fetch_documents_fields in F as [Hrows Hwf].
  destruct (select_max_facts all) as (ND & Hk & Hfm).
  assert (Hwf' : Forall (fun d => wf_path (path d) = true)
                        (select_max_version_of_documents all)).
  { apply Forall_forall. intros d Hd.
    rewrite Forall_forall in Hwf. apply Hwf. now apply first_max_in, Hfm. }
  apply (map_res_correct_path fs1 _ _ M) in Hwf'.
  apply clean_each_keeps in C.
  apply save_each_files in S as [_ Sd].
  assert (Hrel : Forall2 (fun d d' => exists p' c,
                            d' = set_content (set_path d p') c /\
                            ends_with (lit ".md") (name p'))
                         (select_max_version_of_documents all) cleaned).
  { clear - Hwf' C. revert cleaned C.
    induction Hwf' as [|d c ds cs (p' & -> & He) _ IH]; intros cleaned C;
      inversion C; subst; constructor; eauto. }
  assert (Hph : map documentPHID cleaned
                = map documentPHID (select_max_version_of_documents all)).
  { symmetry. eapply Forall2_map_eq; [|exact Hrel].
    intros a b (p' & c & -> & _). reflexivity. }
  assert (Hrp : map r_documentPHID rows = map documentPHID all).
  { apply (Forall2_map_eq built_from); [|exact Hrows].
    intros r d (_ & _ & _ & _ & Hp). now symmetry. }
  rewrite Hph, Hrp. repeat split; try assumption; try apply Hk.
  - destruct (Forall2_In_r _ _ _ _ Hrel H) as (d0 & _ & p' & c & -> & He).
    exact He.
  - now apply Sd.
  - destruct (Forall2_In_r _ _ _ _ Hrel H) as (d0 & Hd0 & p' & c & -> & _).
    apply Hfm, first_max_in in Hd0.
    destruct (Forall2_In_r _ _ _ _ Hrows Hd0) as (r & Hr & Hb).
    exists r. split; [exact Hr|exact Hb].
  - intros r Hr Hp.
    destruct (Forall2_In_r _ _ _ _ Hrel H) as (d0 & Hd0 & p' & c & -> & _).
    destruct (Forall2_In_l _ _ _ _ Hrows Hr) as (e & He & Hb).
    destruct Hb as (_ & Hv & _ & _ & Hpe).
    cbn [documentPHID version set_content set_path] in *.
    rewrite <- Hv. apply (first_max_greatest all d0 e); [now apply Hfm|exact He|].
    congruence.
Qed.

Lemma main_writes_one_file_per_document_witness :
  NoDup (map documentPHID demo_docs) /\
  (forall p, In p (map r_documentPHID demo_rows)
             <-> In p (map documentPHID demo_docs)) /\
  (forall d, In d demo_docs ->
     ends_with (lit ".md") (name (path d)) /\
     is_file demo_fs (path d) = true /\
     (exists r, In r demo_rows /\ built_from r d) /\
     (forall r, In r demo_rows -> r_documentPHID r = documentPHID d ->
                (r_version r <= version d)%Z)).
Proof.
  apply (main_writes_one_file_per_document 10 10 empty_fs demo_rows
                                           demo_docs demo_fs).
  vm_compute. reflexivity.
Defined.

(** ** Contents without markup *)

Lemma search_link_has_bracket text m :
  search LINK_REGEX text = Some m -> has_chr "["%char text = true.
Proof.
  unfold search. intros H.
  apply search_from_sound in H as (pre & s0 & s' & -> & Hm & _).
  apply link_match_shape in Hm as (w1 & u & w2 & w3 & t & w4 & -> & _).
  rewrite has_chr_app. simpl. apply orb_true_r.
Qed.

Lemma search_internal_has_bracket text m :
  search INTERNAL_LINK_REGEX text = Some m -> has_chr "["%char text = true.
Proof.
  unfold search. intros H.
  apply search_from_sound in H as (pre & s0 & s' & -> & Hm & _).
  apply internal_match_shape in Hm as (w1 & u & w2 & -> & _).
  rewrite has_chr_app. simpl. apply orb_true_r.
Qed.

Lemma re_sub_no_match r f s : search r s = None -> re_sub r f s = Ok s.
Proof. unfold re_sub. intros H. destruct (length s); simpl; now rewrite H. Qed.

Lemma custom_re_sub_no_match r f fuel s :
  search r s = None -> custom_re_sub fuel r f s = Ok s.
Proof. intros E. destruct fuel; simpl; unfold sub_once; now rewrite E. Qed.

(** X14: a document whose title and content hold no [[] and fewer than
    two [=] between them goes through [clean_content] with nothing but the
    title line put before its content, for every store, index and bound. *)
Theorem clean_content_plain_text
        (limit fuel : nat) (h : store) (idx : dict nat) (self : Document) :
  has_chr "["%char (title self ++ content self) = false ->
  count_eq (title self ++ content self) <= 1 ->
  clean_content limit fuel h idx self
  = Ok (set_content self (lit "# " ++ title self ++ [NL; NL] ++ content self)).
Proof.
  intros Hb Hc. unfold clean_content, clean_links, clean_headers.
  set (c := lit "# " ++ title self ++ [NL; NL] ++ content self).
  assert (Hcb : has_chr "["%char c = false).
  { subst c. rewrite has_chr_app in Hb. apply orb_false_iff in Hb as [Ht Hcn].
    rewrite !has_chr_app, Ht, Hcn. reflexivity. }
  assert (Hce : count_eq c <= 1).
  { subst c. rewrite count_eq_app in Hc. rewrite !count_eq_app.
    change (count_eq (lit "# ")) with 0. change (count_eq [NL; NL]) with 0. lia. }
  cbn [content set_content].
  rewrite re_sub_no_match.
  2:{ destruct (search LINK_REGEX c) as [m|] eqn:E; [|reflexivity].
      apply search_link_has_bracket in E. congruence. }
  cbn [bind]. rewrite custom_re_sub_no_match.
  2:{ destruct (search INTERNAL_LINK_REGEX c) as [m|] eqn:E; [|reflexivity].
      apply search_internal_has_bracket in E. congruence. }
  cbn [bind content set_content]. rewrite custom_re_sub_no_match.
  2:{ destruct (search HEADER_REGEX c) as [m|] eqn:E; [|reflexivity].
      apply header_step in E as (t' & _ & Hlt). lia. }
  reflexivity.
Qed.

Lemma clean_content_plain_text_witness :
  clean_content 0 0 [] [] (mk_doc "a/" "x = 1, and nothing else")
  = Ok (set_content (mk_doc "a/" "x = 1, and nothing else")
          (lit "# " ++ title (mk_doc "a/" "x = 1, and nothing else") ++ [NL; NL]
               ++ content (mk_doc "a/" "x = 1, and nothing else"))).
Proof.
  apply (clean_content_plain_text 0 0 [] [] (mk_doc "a/" "x = 1, and nothing else")).
  - reflexivity.
  - vm_compute. lia.
Defined.

(** ** The order of the selected documents *)

Lemma existsb_str_eqb_In x l : existsb (str_eqb x) l = true <-> In x l.
Proof.
  rewrite existsb_exists. split.
  - intros (y & Hy & E). apply str_eqb_eq in E. now subst.
  - intros H. exists x. split; [assumption|apply str_eqb_refl].
Qed.

Lemma keep_max_keys mv d :
  dict_keys (keep_max mv d)
  = if existsb (str_eqb (documentPHID d)) (dict_keys mv)
    then dict_keys mv else dict_keys mv ++ [documentPHID d].
Proof.
  unfold keep_max. destruct (dict_get mv (documentPHID d)) as [c|] eqn:G.
  - assert (E : existsb (str_eqb (documentPHID d)) (dict_keys mv) = true).
    { apply existsb_str_eqb_In. apply dict_get_In in G.
      change (documentPHID d) with (fst (documentPHID d, c)).
      now apply in_map. }
    rewrite E. destruct (version c <? version d)%Z; [|reflexivity].
    exact (dict_keys_set_old _ _ _ d _ G).
  - assert (E : existsb (str_eqb (documentPHID d)) (dict_keys mv) = false).
    { destruct (existsb _ _) eqn:E; [|reflexivity].
      apply existsb_str_eqb_In in E. now apply dict_get_None in G. }
    rewrite E. exact (dict_keys_set_new _ _ _ d G).
Qed.

Lemma fold_keep_max_keys docs : forall mv,
  dict_keys (fold_left keep_max docs mv)
  = fold_left (fun acc x => if existsb (str_eqb x) acc then acc else acc ++ [x])
              (map documentPHID docs) (dict_keys mv).
Proof.
  induction docs as [|d docs IH]; intros mv; simpl; [reflexivity|].
  now rewrite IH, keep_max_keys.
Qed.

(** X15: the selected documents come in the order in which their
    documentPHIDs first appear in the input. *)
Theorem select_max_version_order (docs : list Document) :
  map documentPHID (select_max_version_of_documents docs)
  = first_seen (map documentPHID docs).
Proof.
  unfold select_max_version_of_documents, first_seen.
  pose proof (fold_keep_max_inv docs [] [] max_inv_nil) as [_ _ HB].
  rewrite values_phids by (intros k d Hd; now destruct (HB _ _ Hd)).
  apply fold_keep_max_keys.
Qed.

(** * The bare reference, through the loop *)









(** * The rewriting passes are not total *)

Lemma match_here_needs_brackets s s' g :
  match_here INTERNAL_LINK_REGEX s = Some (s', g) ->
  exists rest, s = "["%char :: "["%char :: rest.
Proof.
  intros H. apply internal_match_shape in H as (w1 & u & w2 & -> & _).
  eexists. reflexivity.
Qed.

Lemma match_here_other_head c rest :
  Ascii.eqb c "["%char = false ->
  match_here INTERNAL_LINK_REGEX (c :: rest) = None.
Proof.
  intros Hc. destruct (match_here _ _) as [[s' g]|] eqn:E; [|reflexivity].
  apply match_here_needs_brackets in E as (r & E). injection E as -> _.
  discriminate Hc.
Qed.

Lemma match_here_other_second c rest :
  Ascii.eqb c "["%char = false ->
  match_here INTERNAL_LINK_REGEX ("["%char :: c :: rest) = None.
Proof.
  intros Hc. destruct (match_here _ _) as [[s' g]|] eqn:E; [|reflexivity].
  apply match_here_needs_brackets in E as (r & E). injection E as -> _.
  discriminate Hc.
Qed.

Lemma skipped_nil : skipped [].
Proof. intros off rest. simpl. now rewrite Nat.add_0_r. Qed.

Lemma skipped_step p : skipped p -> skipped (p ++ lit "[x").
Proof.
  intros Hp off rest. rewrite <- app_assoc, Hp. cbn [app lit list_ascii_of_string].
  cbn [search_from].
  rewrite match_here_other_second by reflexivity.
  rewrite match_here_other_head by reflexivity.
  rewrite length_app. cbn [length]. f_equal. lia.
Qed.

Lemma has_close_found a : forall b,
  has_close (a ++ "]"%char :: "]"%char :: b) = true.
Proof.
  induction a as [|x a IH]; intros b; [reflexivity|].
  cbn [app has_close]. destruct (a ++ "]"%char :: "]"%char :: b) eqn:E.
  - now destruct a.
  - rewrite <- E, IH. apply orb_true_r.
Qed.

Lemma closing_needs_close {A} s g (k : str -> caps -> option A) x :
  mtch closing s g k = Some x ->
  exists sp rest, s = sp ++ "]"%char :: "]"%char :: rest.
Proof.
  intros H. apply mtch_sound in H as (s' & g' & Hs & _).
  destruct Hs as (s1 & g1 & H1 & s2 & g2 & H2 & H3).
  apply sem_spaces in H1 as (sp & -> & _).
  apply sem_one_lit in H2 as [-> _]. apply sem_one_lit in H3 as [-> _].
  eauto.
Qed.

Lemma no_close_after_bracket q :
  has_close q = false -> has_close ("]"%char :: " "%char :: q) = false.
Proof. intros H. cbn. destruct q; [reflexivity|]. exact H. Qed.

(** The reference of the loop is matched alone when no closing brackets
    follow it. *)
Lemma loop_token_match q :
  has_close q = false ->
  match_here INTERNAL_LINK_REGEX (lit "[[s]] " ++ q)
  = Some (" "%char :: q, [(1, lit "s")]).
Proof.
  intros Hq. unfold match_here.
  change INTERNAL_LINK_REGEX
    with (Cat (L "[") (Cat (L "[") (Cat (Star Space)
           (Cat (Grp 1 (Cat (Star Dot) (One NonSpace))) closing)))).
  change (lit "[[s]] " ++ q)
    with ("["%char :: "["%char :: "s"%char :: "]"%char :: "]"%char :: " "%char :: q).
  cbn [mtch L].
  change (atom_ok (Lit "["%char) "["%char) with true. cbn iota.
  rewrite star_stop by reflexivity.
  apply (dot_star_last
           (fun s'0 g' =>
              mtch closing s'0
                ((1, firstn (length ("s"%char :: "]"%char :: "]"%char :: " "%char :: q)
                             - length s'0)
                            ("s"%char :: "]"%char :: "]"%char :: " "%char :: q)) :: g')
                (fun s1 g => Some (s1, g)))
           [] "s"%char ("]"%char :: "]"%char :: " "%char :: q) []);
    try reflexivity.
  - intros t1 t2 E.
    destruct (mtch (One NonSpace) t2 [] _) as [y|] eqn:My; [exfalso|reflexivity].
    cbn [mtch] in My. destruct t2 as [|z t3]; [discriminate|].
    destruct (atom_ok NonSpace z) eqn:Hz; [|discriminate].
    apply closing_needs_close in My as (sp & rest & ->).
    pose proof (no_close_after_bracket q Hq) as Hn.
    destruct t1 as [|y1 t1]; cbn [app] in E; injection E as _ E.
    + rewrite E, has_close_found in Hn. discriminate.
    + replace (t1 ++ z :: sp ++ "]"%char :: "]"%char :: rest)
        with ((t1 ++ z :: sp) ++ "]"%char :: "]"%char :: rest) in E
        by (now rewrite <- app_assoc).
      rewrite E, has_close_found in Hn. discriminate.
  - cbv beta.
    change ("s"%char :: "]"%char :: "]"%char :: " "%char :: q)
      with (["s"%char] ++ "]"%char :: "]"%char :: " "%char :: q).
    rewrite firstn_consumed.
    unfold closing. cbn [cat mtch L]. rewrite star_stop by reflexivity.
    change (atom_ok (Lit "]"%char) "]"%char) with true. cbn iota.
    reflexivity.
Qed.

Lemma search_from_here r off s s' g :
  match_here r s = Some (s', g) ->
  search_from r off s
  = Some {| m_start := off; m_end := off + (length s - length s');
            m_groups := g |}.
Proof. intros H. destruct s; simpl; now rewrite H. Qed.

Lemma loop_link_path limit :
  regressive_relative_to limit (parent (path loop_doc)) (path loop_doc)
  = Ok (mkPath [lit "s.md"]).
Proof. destruct limit; reflexivity. Qed.

Lemma loop_replacement limit m :
  m_groups m = [(1, lit "s")] ->
  replace_a_link_by_slug limit loop_store loop_index loop_doc m
  = Ok (lit "[x[[s]] ](s.md)").
Proof.
  intros Hg. unfold replace_a_link_by_slug, group. rewrite Hg.
  change (cap_get [(1, lit "s")] 1) with (Some (lit "s")). cbv iota.
  change (format_slug (lit "s")) with (Ok (lit "s/")). cbn [bind].
  change (dict_get loop_index (lit "s/")) with (Some 0). cbv iota beta.
  change (deref loop_store 0) with (Ok loop_doc). cbn [bind].
  unfold render_link. rewrite loop_link_path. reflexivity.
Qed.

(** One turn of the loop on [loop_doc] leads from a text of the family to
    another one. *)
Lemma loops_step limit text :
  loops text ->
  exists text',
    sub_once INTERNAL_LINK_REGEX
             (replace_a_link_by_slug limit loop_store loop_index loop_doc) text
    = Some (Ok text') /\ loops text'.
Proof.
  intros (p & q & -> & Hp & Hq).
  assert (Hs : search INTERNAL_LINK_REGEX (p ++ lit "[[s]] " ++ q)
               = Some {| m_start := 0 + length p;
                         m_end := 0 + length p
                                  + (length (lit "[[s]]" ++ " "%char :: q)
                                     - length (" "%char :: q));
                         m_groups := [(1, lit "s")] |}).
  { unfold search. rewrite Hp.
    exact (search_from_here _ _ _ _ _ (loop_token_match q Hq)). }
  unfold sub_once. rewrite Hs, loop_replacement by reflexivity.
  cbn [bind m_start m_end].
  exists ((p ++ lit "[x") ++ lit "[[s]] " ++ lit "](s.md)" ++ q).
  split.
  - f_equal. f_equal. rewrite firstn_before.
    change (lit "[[s]] " ++ q) with (lit "[[s]]" ++ " "%char :: q).
    rewrite skipn_past. cbn [skipn]. rewrite <- !app_assoc. reflexivity.
  - exists (p ++ lit "[x"), (lit "](s.md)" ++ q). split; [reflexivity|].
    split; [now apply skipped_step|].
    cbn. destruct q; [reflexivity|]. exact Hq.
Qed.

Lemma loops_forever limit : forall fuel text,
  loops text ->
  custom_re_sub fuel INTERNAL_LINK_REGEX
                (replace_a_link_by_slug limit loop_store loop_index loop_doc) text
  = OutOfFuel.
Proof.
  induction fuel as [|fuel IH]; intros text H;
    destruct (loops_step limit text H) as (text' & Hs & H'); simpl; rewrite Hs.
  - reflexivity.
  - cbn [bind]. now apply IH.
Qed.

Lemma regressive_anchor_mismatch limit : forall P Q,
  anchor P <> anchor Q ->
  regressive_relative_to limit P Q = Raise RecursionError.
Proof.
  induction limit as [|limit IH]; intros P Q Ha; simpl; unfold relative_to;
    (destruct (anchor Q =? anchor P) eqn:E;
     [apply Nat.eqb_eq in E; congruence|]); cbn [andb]; [reflexivity|].
  rewrite IH by exact Ha. reflexivity.
Qed.

(** C10 fails as stated: the rewriting passes are not total.  On a
    document whose title holds a reference to its own slug, the bare
    reference loop finds a match at every turn, whatever the bounds; and
    a reference to a document whose path has another anchor than the path
    of the rewritten document makes [render_link] exceed every recursion
    limit. *)
Lemma link_rewriting_not_total_counterexample :
  (forall limit fuel,
      clean_links limit fuel loop_store loop_index loop_doc = OutOfFuel) /\
  (forall limit fuel,
      clean_links limit (S fuel) far_store far_index near_doc
      = Raise RecursionError).
Proof.
  split; intros limit fuel; unfold clean_links.
  - change (content loop_doc) with (lit "[[s]] ").
    rewrite re_sub_no_match by reflexivity. cbn [bind].
    rewrite loops_forever; [reflexivity|].
    exists [], []. split; [reflexivity|]. split; [apply skipped_nil|reflexivity].
  - change (content near_doc) with (lit "[[/x]]").
    rewrite re_sub_no_match by reflexivity. cbn [bind custom_re_sub].
    unfold sub_once.
    assert (E : search INTERNAL_LINK_REGEX (lit "[[/x]]")
                = Some {| m_start := 0; m_end := 6;
                          m_groups := [(1, lit "/x")] |})
      by (vm_compute; reflexivity).
    rewrite E. unfold replace_a_link_by_slug, group. cbn [m_groups].
    change (cap_get [(1, lit "/x")] 1) with (Some (lit "/x")). cbv iota.
    change (format_slug (lit "/x")) with (Ok (lit "/x/")). cbn [bind].
    change (dict_get far_index (lit "/x/")) with (Some 0). cbv iota beta.
    change (deref far_store 0) with (Ok far_doc). cbn [bind].
    unfold render_link. rewrite regressive_anchor_mismatch by discriminate.
    reflexivity.
Qed.
